(** * The Raven stream lexer (codemirror-lang-raven): model and properties

    A shallow embedding of the stream parser [ravenParser] (the third
    document of [src/vitest.config.ts], lines 95-413), of the line driver
    [tokens] of its test suite (the second document, lines 9-94), and of the
    part of CodeMirror's [StringStream] cursor that both drive.  Line numbers
    in the comments are those of [src/vitest.config.ts].

    A JavaScript string is a sequence of UTF-16 code units; a code unit is
    modelled as a number of type [N] and a string as a list of them.  The
    lexer state, mutated in place by the source, is threaded explicitly:
    every operation takes the cursor and the state and returns the new
    ones. *)

From Stdlib Require Import NArith ZArith Ascii String Lia Bool.
From stdpp Require Import list.

Local Open Scope N_scope.

(** ** Characters *)

Definition char := N.

(** [code "x"] is the code unit of an ASCII character. *)
Definition code (a : ascii) : char := N_of_ascii a.
Arguments code : simpl never.

(** The double quote, the backtick and the escape marker (backslash). *)
Definition DQUOTE : char := 34.
Definition BACKTICK : char := 96.
Definition BACKSLASH : char := 92.

(** The code units of an ASCII literal. *)
Fixpoint lit (s : String.string) : list char :=
  match s with
  | EmptyString => []
  | String a s' => code a :: lit s'
  end.

Definition in_range (lo hi c : char) : bool := (lo <=? c) && (c <=? hi).

(** [/\d/] *)
Definition isDigit (c : char) : bool := in_range (code "0") (code "9") c.

(** [/[0-9a-fA-F]/] *)
Definition isHexDigit (c : char) : bool :=
  isDigit c || in_range (code "a") (code "f") c || in_range (code "A") (code "F") c.

(** [identifierStart = /[A-Za-z_]/] *)
Definition identifierStart (c : char) : bool :=
  in_range (code "A") (code "Z") c || in_range (code "a") (code "z") c || (c =? code "_").

(** [identifierPart = /[A-Za-z0-9_!?]/] *)
Definition identifierPart (c : char) : bool :=
  in_range (code "A") (code "Z") c || in_range (code "a") (code "z") c
  || in_range (code "0") (code "9") c
  || (c =? code "_") || (c =? code "!") || (c =? code "?").

(** [operatorChars = /=|!|<|>|\+|-|\*|\/|\^|:|&|\|/] *)
Definition operatorChars (c : char) : bool :=
  (c =? code "=") || (c =? code "!") || (c =? code "<") || (c =? code ">")
  || (c =? code "+") || (c =? code "-") || (c =? code "*") || (c =? code "/")
  || (c =? code "^") || (c =? code ":") || (c =? code "&") || (c =? code "|").

(** [/[\s\u00a0]/], the class [StringStream.eatSpace] skips: the ECMAScript
    white space and line terminator code units. *)
Definition isSpace (c : char) : bool :=
  in_range 9 13 c || (c =? 32) || (c =? 160) || (c =? 5760)
  || in_range 8192 8202 c || (c =? 8232) || (c =? 8233) || (c =? 8239)
  || (c =? 8287) || (c =? 12288) || (c =? 65279).

Definition isQuote (c : char) : bool := (c =? DQUOTE) || (c =? BACKTICK).

Definition mem (c : char) (l : list char) : bool := existsb (N.eqb c) l.

(** [delimiters] and [statementTerminators], the two [Set]s of the source. *)
Definition delimiters : list char := lit "()[]{}".
Definition statementTerminators : list char := lit ",)]}#".

(** [multiCharOps], [pairedOps], [singleOps], in the order of the source. *)
Definition multiCharOps : list (list char) := [lit "..."].
Definition pairedOps : list (list char) :=
  [lit "=="; lit "!="; lit ">="; lit "<="; lit "&&"; lit "||"; lit "|>"].
Definition singleOps : list (list char) :=
  [lit "="; lit "+"; lit "-"; lit "*"; lit "/"; lit "^"; lit ">";
   lit "<"; lit ":"; lit "&"; lit "|"].

(** ** Prefixes of the remaining input *)

(** Number of leading elements that satisfy [p]: what a greedy [p*] takes. *)
Fixpoint span (p : char -> bool) (l : list char) : nat :=
  match l with
  | c :: l' => if p c then S (span p l') else O
  | [] => O
  end.

(** [rest] begins with [pat]. *)
Fixpoint starts_with (pat rest : list char) : bool :=
  match pat, rest with
  | [], _ => true
  | p :: pat', c :: rest' => (c =? p) && starts_with pat' rest'
  | _ :: _, [] => false
  end.

(** The regular expressions of the source, each as the length of its match
    at the head of [rest] ([StringStream.match] rejects a match that starts
    later).  All of them are greedy and never need to give characters back. *)

(** [/0x[0-9a-fA-F]+/] *)
Definition re_hex (rest : list char) : option nat :=
  match rest with
  | c0 :: c1 :: r =>
      if (c0 =? code "0") && (c1 =? code "x") && (0 <? span isHexDigit r)%nat
      then Some (2 + span isHexDigit r)%nat else None
  | _ => None
  end.

(** [/\d+(?:\.\d* )?/] (written here with a space before the closing
    parenthesis of the group): digits, then optionally a dot and digits. *)
Definition re_decimal (rest : list char) : option nat :=
  let n := span isDigit rest in
  if (n =? 0)%nat then None
  else match drop n rest with
       | c :: r => if c =? code "." then Some (n + 1 + span isDigit r)%nat else Some n
       | [] => Some n
       end.

(** The same after a minus sign: the signed literal of [readNumber]. *)
Definition re_signed (rest : list char) : option nat :=
  match rest with
  | c :: r => if c =? code "-" then S <$> re_decimal r else None
  | [] => None
  end.

(** [/\.\d+/] *)
Definition re_dot_decimal (rest : list char) : option nat :=
  match rest with
  | c :: r =>
      if (c =? code ".") && (0 <? span isDigit r)%nat
      then Some (S (span isDigit r)) else None
  | [] => None
  end.

(** The opening of a string literal, the expression of [startString]: a
    (greedy) run of backslashes, group 1, then a double quote or a backtick,
    group 2.  The result is the length of group 1 and the character of
    group 2. *)
Definition re_string_open (rest : list char) : option (nat * char) :=
  let k := span (N.eqb BACKSLASH) rest in
  match drop k rest with
  | q :: _ => if isQuote q then Some (k, q) else None
  | [] => None
  end.

(** ** The cursor: CodeMirror's [StringStream]

    [StringStream] belongs to the package [@codemirror/language], which the
    repository depends on; the fields and the methods the lexer and the
    driver use are rendered here as that class defines them: [eol] is
    [pos >= string.length], [sol] is [pos == 0], [peek] and [next] read
    [string.charAt(pos)], [match] with a string compares
    [string.substr(pos, pattern.length)], [match] with a regular expression
    accepts a match of [string.slice(pos)] only at index 0, and [current] is
    [string.slice(start, pos)]. *)

Module StringStream.

Record t := mk { string : list char; pos : nat; start : nat }.

Definition make (line : list char) : t := mk line 0 0.

Definition set_pos (s : t) (p : nat) : t := mk (string s) p (start s).

(** The text from the cursor on: [string.slice(pos)]. *)
Definition rest (s : t) : list char := drop (pos s) (string s).

Definition eol (s : t) : bool := (length (string s) <=? pos s)%nat.

Definition sol (s : t) : bool := (pos s =? 0)%nat.

Definition peek (s : t) : option char := string s !! pos s.

Definition next (s : t) : option char * t :=
  match string s !! pos s with
  | Some c => (Some c, set_pos s (S (pos s)))
  | None => (None, s)
  end.

Definition eatWhile (p : char -> bool) (s : t) : bool * t :=
  let n := span p (rest s) in ((0 <? n)%nat, set_pos s (pos s + n)).

Definition eatSpace (s : t) : bool * t := eatWhile isSpace s.

Definition skipToEnd (s : t) : t := set_pos s (length (string s)).

(** [match(pattern)] with a string pattern (consuming). *)
Definition match_string (pat : list char) (s : t) : option t :=
  if starts_with pat (rest s) then Some (set_pos s (pos s + length pat)) else None.

(** [match(pattern)] with a regular expression (consuming), [re] giving the
    length of the match at the cursor. *)
Definition match_re (re : list char -> option nat) (s : t) : option t :=
  (fun n => set_pos s (pos s + n)) <$> re (rest s).

(** [current()] *)
Definition current (s : t) : list char :=
  drop (start s) (take (pos s) (string s)).

End StringStream.

(** ** The lexer state *)

Record StringState := {
  quote : char;
  slashes : nat;
  raw : bool;
  close : list char;
  escape : option (list char)
}.

Record RavenState := {
  string : option StringState;
  exprStart : bool;
  macroEligible : bool;
  afterDot : bool;
  inSwap : bool;
  macroLocked : bool;
  macroLockStack : list bool
}.

(** The assignments [state.f = v]. *)
Definition set_string v (st : RavenState) : RavenState :=
  {| string := v; exprStart := exprStart st; macroEligible := macroEligible st;
     afterDot := afterDot st; inSwap := inSwap st; macroLocked := macroLocked st;
     macroLockStack := macroLockStack st |}.
Definition set_exprStart v (st : RavenState) : RavenState :=
  {| string := string st; exprStart := v; macroEligible := macroEligible st;
     afterDot := afterDot st; inSwap := inSwap st; macroLocked := macroLocked st;
     macroLockStack := macroLockStack st |}.
Definition set_macroEligible v (st : RavenState) : RavenState :=
  {| string := string st; exprStart := exprStart st; macroEligible := v;
     afterDot := afterDot st; inSwap := inSwap st; macroLocked := macroLocked st;
     macroLockStack := macroLockStack st |}.
Definition set_afterDot v (st : RavenState) : RavenState :=
  {| string := string st; exprStart := exprStart st; macroEligible := macroEligible st;
     afterDot := v; inSwap := inSwap st; macroLocked := macroLocked st;
     macroLockStack := macroLockStack st |}.
Definition set_inSwap v (st : RavenState) : RavenState :=
  {| string := string st; exprStart := exprStart st; macroEligible := macroEligible st;
     afterDot := afterDot st; inSwap := v; macroLocked := macroLocked st;
     macroLockStack := macroLockStack st |}.
Definition set_macroLocked v (st : RavenState) : RavenState :=
  {| string := string st; exprStart := exprStart st; macroEligible := macroEligible st;
     afterDot := afterDot st; inSwap := inSwap st; macroLocked := v;
     macroLockStack := macroLockStack st |}.
Definition set_macroLockStack v (st : RavenState) : RavenState :=
  {| string := string st; exprStart := exprStart st; macroEligible := macroEligible st;
     afterDot := afterDot st; inSwap := inSwap st; macroLocked := macroLocked st;
     macroLockStack := v |}.

(** The four assignments that end almost every branch of the source, in its
    order: [exprStart], [macroEligible], [afterDot], [inSwap]. *)
Definition set_context (e m a i : bool) (st : RavenState) : RavenState :=
  set_inSwap i (set_afterDot a (set_macroEligible m (set_exprStart e st))).

(** The token categories ([null] is [None]). *)
Inductive Style :=
  | keyword | propertyName | variableName_special | variableName
  | number | string_style | operator | bracket | punctuation
  | annotation | comment.

Definition TokenResult : Type := option Style * StringStream.t * RavenState.

(** ** The recognizers (lines 127-229) *)

(** [peekNonSpace] (lines 127-135): the first character from the cursor on that is not a
    space, a tab or a carriage return, with its index; a [#] there, or the end
    of the line, gives no character. *)
Fixpoint peekNonSpace_from (len : nat) (rest : list char) (i : nat) : option char * nat :=
  match rest with
  | ch :: rest' =>
      if (ch =? code " ") || (ch =? 9) || (ch =? 13) then peekNonSpace_from len rest' (S i)
      else if ch =? code "#" then (None, i)
      else (Some ch, i)
  | [] => (None, len)
  end.

Definition peekNonSpace (stream : StringStream.t) : option char * nat :=
  peekNonSpace_from (length (StringStream.string stream))
    (StringStream.rest stream) (StringStream.pos stream).

(** [isStringStart] (lines 137-139): the anchored form of the opening
    expression. *)
Definition isStringStart (source : list char) : bool :=
  match re_string_open source with Some _ => true | None => false end.

(** [startString] (lines 141-156). *)
Definition startString (stream : StringStream.t) (state : RavenState)
  : option StringState * StringStream.t * RavenState :=
  match re_string_open (StringStream.rest stream) with
  | None => (None, stream, state)
  | Some (slashes, quote) =>
      let stream := StringStream.set_pos stream (StringStream.pos stream + (slashes + 1)) in
      let raw := quote =? BACKTICK in
      let close := quote :: replicate slashes BACKSLASH in
      let escape := if raw then None else Some (replicate (Nat.max 1 slashes) BACKSLASH) in
      let next := {| quote := quote; slashes := slashes; raw := raw;
                     close := close; escape := escape |} in
      let state := set_string (Some next) state in
      let state := set_context false false false false state in
      (Some next, stream, state)
  end.

(** The guard [!info.raw && info.escape && stream.match(info.escape)]: a
    null or empty escape sequence is falsy and nothing is matched. *)
Definition match_escape (info : StringState) (stream : StringStream.t) : option StringStream.t :=
  if raw info then None
  else match escape info with
       | Some (c :: e) => StringStream.match_string (c :: e) stream
       | _ => None
       end.

(** The loop of [readString] (lines 158-174).  Every round consumes at least one character,
    so the number of characters left on the line is fuel enough
    ([readString_loop_fuel] below). *)
Fixpoint readString_loop (fuel : nat) (info : StringState)
    (stream : StringStream.t) (state : RavenState) : TokenResult :=
  match fuel with
  | O => (Some string_style, stream, state)
  | S fuel' =>
      if StringStream.eol stream then (Some string_style, stream, state)
      else match StringStream.match_string (close info) stream with
           | Some stream' =>
               let state := set_string None state in
               let state := set_exprStart false state in
               let state := set_macroEligible false state in
               (Some string_style, stream', state)
           | None =>
               match match_escape info stream with
               | Some stream' =>
                   let stream' := if StringStream.eol stream' then stream'
                                  else snd (StringStream.next stream') in
                   readString_loop fuel' info stream' state
               | None => readString_loop fuel' info (snd (StringStream.next stream)) state
               end
           end
  end.

Definition readString_with (info : StringState) (stream : StringStream.t)
    (state : RavenState) : TokenResult :=
  readString_loop (length (StringStream.string stream) - StringStream.pos stream)
    info stream state.

(** [readString] reads [state.string!]: with no string context the source
    would raise a [TypeError] on [info.close], which is [None] here. *)
Definition readString (stream : StringStream.t) (state : RavenState) : option TokenResult :=
  match string state with
  | Some info => Some (readString_with info stream state)
  | None => None
  end.

Definition number_found (stream : StringStream.t) (state : RavenState) : TokenResult :=
  (Some number, stream, set_context false false false false state).

(** [readNumber] (lines 176-206). *)
Definition readNumber (stream : StringStream.t) (state : RavenState) : TokenResult :=
  match StringStream.match_re re_hex stream with
  | Some stream' => number_found stream' state
  | None =>
  match (if exprStart state then StringStream.match_re re_signed stream else None) with
  | Some stream' => number_found stream' state
  | None =>
  match StringStream.match_re re_decimal stream with
  | Some stream' => number_found stream' state
  | None =>
  match (if exprStart state then StringStream.match_re re_dot_decimal stream else None) with
  | Some stream' => number_found stream' state
  | None => (None, stream, state)
  end end end end.

(** The test [/\d/] on the character at index [i] of the line, false past
    the end of the line. *)
Definition digit_at (stream : StringStream.t) (i : nat) : bool :=
  match StringStream.string stream !! i with Some c => isDigit c | None => false end.

(** [isArgStart] (lines 208-219). *)
Definition isArgStart (stream : StringStream.t) (next : option char * nat) : bool :=
  match next with
  | (None, _) => false
  | (Some ch, pos) =>
      if identifierStart ch || isDigit ch then true
      else if (ch =? code ".") && digit_at stream (pos + 1) then true
      else if (ch =? code "(") || (ch =? code "[") || (ch =? code "{") || (ch =? code "@") then true
      else if (ch =? DQUOTE) || (ch =? BACKTICK) then true
      else if ch =? BACKSLASH then isStringStart (drop pos (StringStream.string stream))
      else if ch =? code "&" then true
      else if (ch =? code "-") && digit_at stream (pos + 1) then true
      else false
  end.

Definition is_char (c : char) (o : option char) : bool :=
  match o with Some c' => c' =? c | None => false end.

(** [shouldKeyword] (lines 221-229). *)
Definition shouldKeyword (stream : StringStream.t) (state : RavenState) : bool :=
  if negb (exprStart state) || negb (macroEligible state) || afterDot state
     || inSwap state || macroLocked state then false
  else
    let immediate := StringStream.peek stream in
    if is_char (code "(") immediate || is_char (code "[") immediate
       || is_char (code ".") immediate then false
    else if (match immediate with Some _ => true | None => false end)
            && isStringStart (StringStream.rest stream) then false
    else
      let next := peekNonSpace stream in
      if (match fst next with Some ch => mem ch statementTerminators | None => true end)
      then false
      else isArgStart stream next.

(** ** The stream parser [ravenParser] (lines 231-407) *)

Definition startState : RavenState :=
  {| string := None; exprStart := true; macroEligible := true; afterDot := false;
     inSwap := false; macroLocked := false; macroLockStack := [] |}.

Definition blankLine (state : RavenState) : RavenState :=
  let state := set_exprStart true state in
  let state := set_macroEligible true state in
  let state := set_afterDot false state in
  let state := set_inSwap false state in
  set_macroLocked false state.

(** [for (const op of ops) if (stream.match(op)) ...]: the cursor after the
    first operator of the list that matches. *)
Fixpoint match_first (ops : list (list char)) (stream : StringStream.t) : option StringStream.t :=
  match ops with
  | op :: ops' =>
      match StringStream.match_string op stream with
      | Some stream' => Some stream'
      | None => match_first ops' stream
      end
  | [] => None
  end.

(** [macroLockStack.push(v)] and [macroLockStack.pop() ?? false]: the top of
    the stack is the end of the array. *)
Definition push (v : bool) (stack : list bool) : list bool := stack ++ [v].
Definition pop (stack : list bool) : bool * list bool :=
  (List.last stack false, removelast stack).

(** The branch of [token] for an identifier (lines 363-384), entered with the cursor on an
    identifier-start character. *)
Definition identifier (stream : StringStream.t) (state : RavenState) : TokenResult :=
  let stream := snd (StringStream.next stream) in
  let stream := snd (StringStream.eatWhile identifierPart stream) in
  let style :=
    if shouldKeyword stream state then keyword
    else if afterDot state then propertyName
    else if inSwap state then variableName_special
    else variableName in
  let state :=
    match style with
    | keyword =>
        set_macroLocked true (set_macroEligible false (set_exprStart true state))
    | _ => set_macroEligible false (set_exprStart false state)
    end in
  let state := set_afterDot false state in
  let state := set_inSwap false state in
  (Some style, stream, state).

(** The dispatch of [token] on the character [ch] under the cursor (lines
    268-398), after the number and string recognizers have failed. *)
Definition dispatch (ch : char) (stream : StringStream.t) (state : RavenState) : TokenResult :=
  if ch =? code "#" then
    let stream := StringStream.skipToEnd stream in
    (Some comment, stream, set_macroLocked false (set_context true true false false state))
  else if ch =? code "," then
    let stream := snd (StringStream.next stream) in
    (Some punctuation, stream, set_macroLocked false (set_context true true false false state))
  else if mem ch delimiters then
    let stream := snd (StringStream.next stream) in
    let open := (ch =? code "(") || (ch =? code "[") || (ch =? code "{") in
    let state :=
      if open then
        let state := set_macroLockStack (push (macroLocked state) (macroLockStack state)) state in
        set_macroLocked false state
      else
        let (top, stack) := pop (macroLockStack state) in
        set_macroLocked top (set_macroLockStack stack state) in
    (Some bracket, stream, set_context open open false false state)
  else if ch =? code "@" then
    let stream := snd (StringStream.next stream) in
    let stream := snd (StringStream.eatWhile identifierPart stream) in
    (Some annotation, stream, set_context true false false false state)
  else match match_first multiCharOps stream with
  | Some stream => (Some operator, stream, set_context false false false false state)
  | None =>
  match match_first pairedOps stream with
  | Some stream => (Some operator, stream, set_context true true false false state)
  | None =>
  if ch =? code "&" then
    let stream := snd (StringStream.next stream) in
    let peek := StringStream.peek stream in
    let state :=
      if negb (is_char (code "&") peek)
         && (match peek with Some c => identifierStart c | None => false end)
      then set_inSwap true state
      else set_macroEligible true (set_exprStart true state) in
    (Some operator, stream, set_afterDot false state)
  else match match_first singleOps stream with
  | Some stream => (Some operator, stream, set_context true true false false state)
  | None =>
  if ch =? code "." then
    let stream := snd (StringStream.next stream) in
    if is_char (code ".") (StringStream.peek stream) then
      (Some operator, stream, set_context false false false false state)
    else
      let state := set_afterDot true state in
      let state := set_exprStart false state in
      let state := set_macroEligible false state in
      let state := set_inSwap false state in
      (Some punctuation, stream, state)
  else if identifierStart ch then identifier stream state
  else if operatorChars ch then
    let stream := snd (StringStream.next stream) in
    (Some operator, stream, set_context true true false false state)
  else
    let stream := snd (StringStream.next stream) in
    (None, stream, set_context false false false false state)
  end end end.

(** The reset [token] applies at the start of a line: the five assignments
    of [blankLine], in the same order. *)
Definition lineStart (stream : StringStream.t) (state : RavenState) : RavenState :=
  if StringStream.sol stream then blankLine state else state.

(** [token] (lines 251-399); [None] is a call that would raise an error. *)
Definition token (stream : StringStream.t) (state : RavenState) : option TokenResult :=
  match string state with
  | Some _ => readString stream state
  | None =>
      let state := lineStart stream state in
      let (ate, stream') := StringStream.eatSpace stream in
      if ate then Some (None, stream', state)
      else
        match readNumber stream state with
        | (Some num, stream, state) => Some (Some num, stream, state)
        | (None, stream, state) =>
            match startString stream state with
            | (Some _, stream, state) => readString stream state
            | (None, stream, state) =>
                match StringStream.peek stream with
                | None => Some (None, stream, state)
                | Some ch => Some (dispatch ch stream state)
                end
            end
        end
  end.

(** ** The line driver [tokens] of the test suite (lines 16-46) *)

Record Token := { text : list char; style : option Style }.

(** What the driver does with the state: a call of [token], recorded with
    the token it produced, a call of [blankLine], or a call of [token] that
    raises an error and ends the run. *)
Inductive Event :=
  | Tok (t : Token)
  | Blank
  | Failed.

(** The loop [while (!stream.eol())] over one line, recording the state after
    each call.  A call on a line that is not at its end consumes a character,
    so the length of the line is fuel enough ([scan_fuel] below). *)
Fixpoint scan (fuel : nat) (stream : StringStream.t) (state : RavenState)
  : list (Event * RavenState) :=
  match fuel with
  | O => []
  | S fuel' =>
      if StringStream.eol stream then []
      else match token stream state with
           | None => [(Failed, state)]
           | Some (style, stream, state) =>
               let tok := {| text := StringStream.current stream; style := style |} in
               let stream := StringStream.mk (StringStream.string stream)
                               (StringStream.pos stream) (StringStream.pos stream) in
               (Tok tok, state) :: scan fuel' stream state
           end
  end.

(** The state a trace ends in. *)
Definition final (state : RavenState) (trace : list (Event * RavenState)) : RavenState :=
  List.last (snd <$> trace) state.

Definition scan_line (line : list char) (state : RavenState) : list (Event * RavenState) :=
  match line with
  | [] => [(Blank, blankLine state)]
  | _ => scan (length line) (StringStream.make line) state
  end.

Fixpoint scan_lines (lines : list (list char)) (state : RavenState)
  : list (Event * RavenState) :=
  match lines with
  | line :: lines' =>
      let trace := scan_line line state in
      trace ++ scan_lines lines' (final state trace)
  | [] => []
  end.

(** [doc.split(/\r?\n/)] *)
Fixpoint split_lines (cur doc : list char) : list (list char) :=
  match doc with
  | [] => [cur]
  | c :: doc' =>
      if c =? 10 then cur :: split_lines [] doc'
      else match doc' with
           | c' :: doc'' =>
               if (c =? 13) && (c' =? 10) then cur :: split_lines [] doc''
               else split_lines (cur ++ [c]) doc'
           | [] => split_lines (cur ++ [c]) doc'
           end
  end.

(** The instrumented run over a document from the start state. *)
Definition run (doc : list char) : list (Event * RavenState) :=
  scan_lines (split_lines [] doc) startState.

(** [tokens(doc)]: the tokens that carry a style. *)
Definition tokens (doc : list char) : list Token :=
  omap (fun e => match fst e with
                 | Tok t => match style t with Some _ => Some t | None => None end
                 | _ => None
                 end) (run doc).

(** [styleFor(doc, text)] *)
Definition styleFor (doc txt : list char) : option Style :=
  match List.find (fun t => bool_decide (text t = txt)) (tokens doc) with
  | Some t => style t
  | None => None
  end.

(** ** Occurrences of a pattern, for the statements about string literals *)

(** Index of the first occurrence of [pat] in [l]. *)
Fixpoint find_first (pat l : list char) : option nat :=
  if starts_with pat l then Some O
  else match l with
       | _ :: l' => S <$> find_first pat l'
       | [] => None
       end.


(** ** Notions used in the statements *)

(** [s'] is [s] moved forward by at least one character, within the line. *)
Definition advanced (s s' : StringStream.t) : Prop :=
  StringStream.string s' = StringStream.string s
  /\ StringStream.start s' = StringStream.start s
  /\ (StringStream.pos s < StringStream.pos s' <= length (StringStream.string s))%nat.

(** A regular expression match is not empty and lies within the input. *)
Definition re_bounded (re : list char -> option nat) : Prop :=
  forall l n, re l = Some n -> (0 < n <= length l)%nat.

(** The string context [startString] builds for [slashes] escape markers
    before the quote character [q]. *)
Definition opened (k : nat) (q : char) : StringState :=
  {| quote := q; slashes := k; raw := q =? BACKTICK;
     close := q :: replicate k BACKSLASH;
     escape := if q =? BACKTICK then None
               else Some (replicate (Nat.max 1 k) BACKSLASH) |}.

(** The state after the close sequence of a string was matched. *)
Definition closed (st : RavenState) : RavenState :=
  set_macroEligible false (set_exprStart false (set_string None st)).

(** The string context of a state, when there is one, is one [startString]
    builds: the states the lexer itself produces. *)
Definition state_ok (st : RavenState) : Prop :=
  match string st with
  | Some info => exists k q, isQuote q = true /\ info = opened k q
  | None => True
  end.

(** The characters that no branch of [token] accepts, whatever follows them:
    neither white space, a digit, a quote, [#], a comma, a bracket, [@], an
    operator character, a dot nor the start of an identifier.  (A backslash
    is among them; it is recognized only where it starts a string literal.) *)
Definition unrecognized (ch : char) : bool :=
  negb (isSpace ch || isDigit ch || isQuote ch || (ch =? code "#")
        || (ch =? code ",") || mem ch delimiters || (ch =? code "@")
        || operatorChars ch || (ch =? code ".") || identifierStart ch).

(** The four categories of an identifier token. *)
Definition is_identifier_style (sty : Style) : bool :=
  match sty with
  | keyword | propertyName | variableName_special | variableName => true
  | _ => false
  end.

(** The context allows a keyword: the first test of [shouldKeyword]. *)
Definition eligible (st : RavenState) : bool :=
  exprStart st && macroEligible st && negb (afterDot st) && negb (inSwap st)
  && negb (macroLocked st).

(** The characters [peekNonSpace] skips: space, tab and carriage return. *)
Definition isBlank (ch : char) : bool :=
  (ch =? code " ") || (ch =? 9) || (ch =? 13).

(** *** Brackets along a run *)

Definition is_open (ch : char) : bool :=
  (ch =? code "(") || (ch =? code "[") || (ch =? code "{").

(** The change of the nesting depth an event makes: one up for a bracket
    token that is an opening bracket, one down for any other bracket token,
    none for the rest (a bracket character inside a string or a comment is
    not a bracket token). *)
Definition delta (e : Event) : Z :=
  match e with
  | Tok {| text := [ch]; style := Some bracket |} => if is_open ch then 1%Z else (-1)%Z
  | _ => 0%Z
  end.

(** The nesting depth at the end of a trace. *)
Fixpoint depth (trace : list (Event * RavenState)) : Z :=
  match trace with
  | (e, _) :: trace' => (delta e + depth trace')%Z
  | [] => 0%Z
  end.

(** No prefix of the trace, entered at depth [d], closes more brackets than
    are open. *)
Fixpoint well_bracketed_from (d : Z) (trace : list (Event * RavenState)) : bool :=
  match trace with
  | (e, _) :: trace' =>
      (0 <=? d + delta e)%Z && well_bracketed_from (d + delta e) trace'
  | [] => true
  end.

Definition well_bracketed (trace : list (Event * RavenState)) : bool :=
  well_bracketed_from 0 trace.

(** Every bracket opened in the trace is closed in it, and nothing else. *)
Definition balanced (trace : list (Event * RavenState)) : bool :=
  well_bracketed trace && (depth trace =? 0)%Z.

(** One call of the driver on the state: a call of [token] on some cursor
    whose token starts at the cursor, or a call of [blankLine]. *)
Inductive lexer_step (st : RavenState) : Event -> RavenState -> Prop :=
  | step_token s sty s' st' :
      StringStream.start s = StringStream.pos s ->
      token s st = Some (sty, s', st') ->
      lexer_step st (Tok {| text := StringStream.current s'; style := sty |}) st'
  | step_blank : lexer_step st Blank (blankLine st).

(** A trace of such calls from a state. *)
Inductive chain : RavenState -> list (Event * RavenState) -> Prop :=
  | chain_nil st : chain st []
  | chain_cons st e st' trace :
      lexer_step st e st' -> chain st' trace -> chain st ((e, st') :: trace).

(** What a step of depth change [d] does to the lock stack. *)
Definition stack_effect (d : Z) (st st' : RavenState) : Prop :=
  match d with
  | Zpos _ =>
      exists b, macroLockStack st' = macroLockStack st ++ [b]
                /\ macroLocked st' = false
  | Zneg _ =>
      macroLocked st' = List.last (macroLockStack st) false
      /\ macroLockStack st' = removelast (macroLockStack st)
  | Z0 => macroLockStack st' = macroLockStack st
  end.

(** *** Further notions: invariants of the flags, the text of a trace *)

(** Two relations between the flags that every state of a run satisfies:
    [macroEligible] is only true together with [exprStart], and [afterDot]
    is only true with [exprStart] and [inSwap] false. *)
Definition flags_ok (st : RavenState) : bool :=
  implb (macroEligible st) (exprStart st)
  && implb (afterDot st) (negb (exprStart st) && negb (inSwap st)).

(** The text a trace covers: the texts of its tokens, one after the other. *)
Definition texts (trace : list (Event * RavenState)) : list char :=
  concat ((fun e => match fst e with Tok t => text t | _ => [] end) <$> trace).

(** The nesting depth when closing brackets without an open one are
    ignored. *)
Definition step_depth (d : nat) (e : Event) : nat :=
  Z.to_nat (Z.max 0 (Z.of_nat d + delta e)).

Definition sat_depth (trace : list (Event * RavenState)) : nat :=
  fold_left (fun d e => step_depth d (fst e)) trace O.


(** * Properties *)

(** ** The cursor *)

Section Cursor.

Import StringStream.

Lemma span_le p l : (span p l <= length l)%nat.
Proof. induction l as [|c l IH]; simpl; [lia|]. destruct (p c); simpl; lia. Qed.

Lemma starts_with_length pat l :
  starts_with pat l = true -> (length pat <= length l)%nat.
Proof.
  revert l; induction pat as [|p pat IH]; intros [|c l]; simpl; try lia; try discriminate.
  intros [_ H]%andb_prop. apply IH in H. lia.
Qed.

Lemma starts_with_take pat l :
  starts_with pat l = true <-> take (length pat) l = pat.
Proof.
  revert l; induction pat as [|p pat IH]; intros [|c l]; simpl; try done.
  rewrite andb_true_iff, N.eqb_eq, IH. split.
  - intros [-> ->]. done.
  - intros [= -> ->]. done.
Qed.

Lemma rest_length s : length (rest s) = (length (string s) - pos s)%nat.
Proof. unfold rest. by rewrite length_drop. Qed.

Lemma rest_cons s c r : rest s = c :: r -> string s !! pos s = Some c.
Proof.
  unfold rest. intros H. rewrite <- (Nat.add_0_r (pos s)).
  rewrite <- lookup_drop, H. done.
Qed.

Lemma rest_nil s : rest s = [] -> eol s = true.
Proof.
  intros H. apply (f_equal length) in H. rewrite rest_length in H.
  unfold eol. apply Nat.leb_le. simpl in H. lia.
Qed.

Lemma eol_false s : eol s = false -> exists c r, rest s = c :: r.
Proof.
  unfold eol. intros H%Nat.leb_gt.
  destruct (rest s) as [|c r] eqn:E; [|eauto].
  apply rest_nil in E. unfold eol in E. apply Nat.leb_le in E. lia.
Qed.

Lemma eol_true s : eol s = true -> rest s = [].
Proof.
  unfold eol, rest. intros H%Nat.leb_le. by apply drop_ge.
Qed.

Lemma rest_set_pos s c r :
  rest s = c :: r -> rest (set_pos s (S (pos s))) = r.
Proof.
  unfold rest. simpl. intros H.
  replace (S (pos s)) with (pos s + 1)%nat by lia.
  rewrite <- drop_drop, H. done.
Qed.

Lemma rest_set_pos_add s n :
  rest (set_pos s (pos s + n)) = drop n (rest s).
Proof. unfold rest. simpl. by rewrite drop_drop. Qed.

Lemma next_cons s c r :
  rest s = c :: r -> next s = (Some c, set_pos s (S (pos s))).
Proof. intros H%rest_cons. unfold next. by rewrite H. Qed.

Lemma advanced_by s n :
  (0 < n <= length (rest s))%nat -> advanced s (set_pos s (pos s + n)).
Proof. rewrite rest_length. unfold advanced. simpl. intros H. repeat split; lia. Qed.

Lemma advanced_trans s1 s2 s3 :
  advanced s1 s2 -> (advanced s2 s3 \/ s3 = s2) -> advanced s1 s3.
Proof.
  unfold advanced. intros (E1 & E2 & H1) [(E3 & E4 & H2)| ->]; [|done].
  rewrite E3, E4, E1 in *. repeat split; try done; lia.
Qed.

Lemma next_advanced s : eol s = false -> advanced s (snd (next s)).
Proof.
  intros (c & r & E)%eol_false. rewrite (next_cons _ _ _ E). simpl.
  replace (S (pos s)) with (pos s + 1)%nat by lia.
  apply advanced_by. rewrite E. simpl. lia.
Qed.

Lemma eatWhile_stays p s :
  let s' := snd (eatWhile p s) in advanced s s' \/ s' = s.
Proof.
  simpl. destruct (span p (rest s)) as [|n] eqn:E.
  - right. destruct s; unfold set_pos; simpl. f_equal. lia.
  - left. apply advanced_by. pose proof (span_le p (rest s)). lia.
Qed.

Lemma match_string_advanced pat s s' :
  pat <> [] -> match_string pat s = Some s' -> advanced s s'.
Proof.
  unfold match_string. intros Hp. destruct (starts_with pat (rest s)) eqn:E; [|done].
  intros [= <-]. apply advanced_by. apply starts_with_length in E.
  destruct pat; [done|]. simpl in *. lia.
Qed.

End Cursor.

(** ** The recognizers move the cursor forward *)

Section Recognizers.

Import StringStream.

Lemma re_hex_bounded : re_bounded re_hex.
Proof.
  intros [|c0 [|c1 r]] n; simpl; try done.
  case_match; [|done]. intros [= <-].
  pose proof (span_le isHexDigit r). lia.
Qed.

Lemma re_decimal_bounded : re_bounded re_decimal.
Proof.
  intros l n. unfold re_decimal.
  pose proof (span_le isDigit l) as Hl.
  destruct (span isDigit l =? 0)%nat eqn:E; [done|]. apply Nat.eqb_neq in E.
  destruct (drop (span isDigit l) l) as [|c r] eqn:D.
  - intros [= <-]. lia.
  - apply (f_equal length) in D. rewrite length_drop in D. simpl in D.
    pose proof (span_le isDigit r).
    destruct (c =? code "."); intros [= <-]; lia.
Qed.

Lemma re_signed_bounded : re_bounded re_signed.
Proof.
  intros [|c r] n; simpl; [done|]. destruct (c =? code "-"); [|done].
  destruct (re_decimal r) as [m|] eqn:E; [|done]. intros [= <-].
  apply re_decimal_bounded in E. lia.
Qed.

Lemma re_dot_decimal_bounded : re_bounded re_dot_decimal.
Proof.
  intros [|c r] n; simpl; [done|]. case_match; [|done]. intros [= <-].
  pose proof (span_le isDigit r). lia.
Qed.

Lemma match_re_advanced re s s' :
  re_bounded re -> match_re re s = Some s' -> advanced s s'.
Proof.
  unfold match_re. intros Hre. destruct (re (rest s)) as [n|] eqn:E; [|done].
  intros [= <-]. apply advanced_by. by apply Hre.
Qed.

Lemma readNumber_spec s st r s' st' :
  readNumber s st = (r, s', st') ->
  (r = None /\ s' = s /\ st' = st)
  \/ (r = Some number /\ advanced s s'
      /\ st' = set_context false false false false st).
Proof.
  unfold readNumber, number_found.
  destruct (match_re re_hex s) eqn:E1.
  { intros [= <- <- <-]. right. eauto using match_re_advanced, re_hex_bounded. }
  destruct (if exprStart st then match_re re_signed s else None) eqn:E2.
  { intros [= <- <- <-]. right. destruct (exprStart st); [|done].
    eauto using match_re_advanced, re_signed_bounded. }
  destruct (match_re re_decimal s) eqn:E3.
  { intros [= <- <- <-]. right. eauto using match_re_advanced, re_decimal_bounded. }
  destruct (if exprStart st then match_re re_dot_decimal s else None) eqn:E4.
  { intros [= <- <- <-]. right. destruct (exprStart st); [|done].
    eauto using match_re_advanced, re_dot_decimal_bounded. }
  intros [= <- <- <-]. by left.
Qed.

Lemma span_take_replicate c l :
  take (span (N.eqb c) l) l = replicate (span (N.eqb c) l) c.
Proof.
  induction l as [|d l IH]; simpl; [done|].
  destruct (c =? d) eqn:E; simpl; [|done].
  apply N.eqb_eq in E. subst d. by rewrite IH.
Qed.

Lemma span_replicate_app c k q r :
  (c =? q) = false -> span (N.eqb c) (replicate k c ++ q :: r) = k.
Proof.
  intros Hq. induction k as [|k IH]; simpl.
  - by rewrite Hq.
  - by rewrite N.eqb_refl, IH.
Qed.

Lemma isQuote_not_backslash q : isQuote q = true -> (BACKSLASH =? q) = false.
Proof.
  unfold isQuote. intros [H|H]%orb_prop; apply N.eqb_eq in H; by subst q.
Qed.

Lemma re_string_open_spec l k q :
  re_string_open l = Some (k, q) <->
  exists r, l = replicate k BACKSLASH ++ q :: r /\ isQuote q = true.
Proof.
  unfold re_string_open. split.
  - destruct (drop _ l) as [|q' r] eqn:D; [done|].
    destruct (isQuote q') eqn:Hq; [|done]. intros [= <- <-].
    exists r. split; [|done].
    rewrite <- (take_drop (span (N.eqb BACKSLASH) l) l) at 1.
    by rewrite D, span_take_replicate.
  - intros (r & -> & Hq).
    rewrite span_replicate_app by by apply isQuote_not_backslash.
    rewrite drop_app_length' by by rewrite length_replicate.
    by rewrite Hq.
Qed.

Lemma startString_spec s st r s' st' :
  startString s st = (r, s', st') ->
  (r = None /\ s' = s /\ st' = st /\ isStringStart (rest s) = false)
  \/ (exists k q content,
        rest s = replicate k BACKSLASH ++ q :: content /\ isQuote q = true
        /\ r = Some (opened k q)
        /\ s' = set_pos s (pos s + (k + 1))
        /\ st' = set_context false false false false (set_string (Some (opened k q)) st)).
Proof.
  unfold startString, isStringStart.
  destruct (re_string_open (rest s)) as [[k q]|] eqn:E.
  - intros [= <- <- <-]. right.
    apply re_string_open_spec in E as (content & E & Hq).
    exists k, q, content. done.
  - intros [= <- <- <-]. by left.
Qed.

End Recognizers.

(** ** The loop of [readString] *)

Section Strings.

Import StringStream.

Lemma match_escape_advanced info s s' :
  match_escape info s = Some s' -> advanced s s'.
Proof.
  unfold match_escape. destruct (raw info); [done|].
  destruct (escape info) as [[|c e]|]; try done.
  by apply match_string_advanced.
Qed.

Lemma next_if_not_eol s :
  let s' := if eol s then s else snd (next s) in s' = s \/ advanced s s'.
Proof.
  simpl. destruct (eol s) eqn:E; [by left|]. right. by apply next_advanced.
Qed.

Lemma advanced_fuel s s' fuel :
  advanced s s' -> (length (string s) - pos s <= S fuel)%nat ->
  (length (string s') - pos s' <= fuel)%nat.
Proof. intros (-> & _ & H). lia. Qed.

(** What a run of the loop with enough fuel returns: the category string,
    and either the end of the line with the state untouched, or the cursor
    just after a match of the close sequence and the context removed. *)
Lemma readString_loop_spec info fuel s st :
  close info <> [] ->
  (length (string s) - pos s <= fuel)%nat ->
  exists s',
    (s' = s \/ advanced s s') /\ (eol s = false -> advanced s s')
    /\ ((readString_loop fuel info s st = (Some string_style, s', st)
         /\ eol s' = true)
        \/ (readString_loop fuel info s st = (Some string_style, s', closed st)
            /\ exists s0, (s0 = s \/ advanced s s0)
                          /\ match_string (close info) s0 = Some s')).
Proof.
  intros Hc. revert s. induction fuel as [|fuel IH]; intros s Hf.
  { exists s. assert (eol s = true) as E by (apply Nat.leb_le; lia).
    rewrite E. simpl. split_and!; eauto. done. }
  simpl. destruct (eol s) eqn:E.
  { exists s. split_and!; eauto. done. }
  destruct (match_string (close info) s) as [s1|] eqn:M.
  { exists s1. pose proof (match_string_advanced _ _ _ Hc M).
    split_and!; eauto. right. split; [done|]. exists s. eauto. }
  assert (exists s2, advanced s s2 /\
    match match_escape info s with
    | Some stream' =>
        readString_loop fuel info
          (if eol stream' then stream' else (next stream').2) st
    | None => readString_loop fuel info (next s).2 st
    end = readString_loop fuel info s2 st) as (s2 & A & ->).
  { destruct (match_escape info s) as [s1|] eqn:M2.
    - eexists. split; [|done]. apply match_escape_advanced in M2.
      apply (advanced_trans _ _ _ M2). destruct (next_if_not_eol s1); eauto.
    - eexists. split; [|done]. by apply next_advanced. }
  destruct (IH s2) as (s' & H1 & H2 & H3); [by eapply advanced_fuel|].
  exists s'. assert (advanced s s') as A'.
  { apply (advanced_trans _ _ _ A). destruct H1; eauto. }
  split_and!; eauto.
  destruct H3 as [H3|(H3 & s0 & H4 & H5)]; [by left|right].
  split; [done|]. exists s0. split; [|done]. right.
  apply (advanced_trans _ _ _ A). destruct H4; eauto.
Qed.

(** More fuel than the characters left changes nothing. *)
Lemma readString_loop_fuel info fuel s st :
  close info <> [] ->
  (length (string s) - pos s <= fuel)%nat ->
  readString_loop fuel info s st = readString_with info s st.
Proof.
  intros Hc. unfold readString_with.
  enough (forall f1 f2 s, (length (string s) - pos s <= f1)%nat ->
                          (length (string s) - pos s <= f2)%nat ->
            readString_loop f1 info s st = readString_loop f2 info s st) as H.
  { intros. by apply H. }
  clear s fuel. induction f1 as [|f1 IH]; intros f2 s H1 H2.
  { assert (eol s = true) as E by (apply Nat.leb_le; lia).
    destruct f2; simpl; by rewrite ?E. }
  destruct f2 as [|f2].
  { assert (eol s = true) as E by (apply Nat.leb_le; lia). simpl. by rewrite E. }
  simpl. destruct (eol s) eqn:E; [done|].
  destruct (match_string (close info) s) eqn:M; [done|].
  destruct (match_escape info s) as [s1|] eqn:M2.
  - apply match_escape_advanced in M2.
    assert (advanced s (if eol s1 then s1 else (next s1).2)) as A.
    { apply (advanced_trans _ _ _ M2). destruct (next_if_not_eol s1); eauto. }
    apply IH; by eapply advanced_fuel.
  - pose proof (next_advanced _ E). apply IH; by eapply advanced_fuel.
Qed.

End Strings.

(** ** The structure of a call of [token] *)

Local Abbreviation pos := StringStream.pos.
Local Abbreviation rest := StringStream.rest.
Local Abbreviation eol := StringStream.eol.
Local Abbreviation set_pos := StringStream.set_pos.
Local Abbreviation eatSpace := StringStream.eatSpace.
Local Abbreviation line := StringStream.string.

Section Token.

Lemma eatSpace_false s :
  fst (eatSpace s) = false ->
  rest s = [] \/ exists ch r, rest s = ch :: r /\ isSpace ch = false.
Proof.
  unfold eatSpace, StringStream.eatWhile. simpl. destruct (rest s) as [|ch r]; [by left|].
  simpl. destruct (isSpace ch) eqn:E; [done|]. right. eauto.
Qed.

Lemma eatSpace_true s :
  fst (eatSpace s) = true -> advanced s (snd (eatSpace s)).
Proof.
  unfold eatSpace, StringStream.eatWhile. simpl. intros H%Nat.ltb_lt.
  apply advanced_by. pose proof (span_le isSpace (rest s)). lia.
Qed.

(** The six ways through [token]: inside a string; white space; a number; a
    string opened here; the end of the line; the dispatch on a character. *)
Lemma token_cases s st sty s' st' :
  token s st = Some (sty, s', st') ->
  (exists info, string st = Some info
                /\ readString_with info s st = (sty, s', st'))
  \/ (string st = None /\
      let st0 := lineStart s st in
      (fst (eatSpace s) = true /\ sty = None /\ s' = snd (eatSpace s) /\ st' = st0)
      \/ (fst (eatSpace s) = false /\
          ((sty = Some number /\ readNumber s st0 = (Some number, s', st')
            /\ advanced s s' /\ st' = set_context false false false false st0)
           \/ (readNumber s st0 = (None, s, st0) /\
               ((exists k q content,
                   rest s = replicate k BACKSLASH ++ q :: content
                   /\ isQuote q = true
                   /\ readString_with (opened k q) (set_pos s (pos s + (k + 1)))
                        (set_context false false false false
                           (set_string (Some (opened k q)) st0)) = (sty, s', st'))
                \/ (isStringStart (rest s) = false /\
                    ((rest s = [] /\ sty = None /\ s' = s /\ st' = st0)
                     \/ (exists ch r, rest s = ch :: r /\ isSpace ch = false
                                      /\ dispatch ch s st0 = (sty, s', st'))))))))).
Proof.
  unfold token. destruct (string st) as [info|] eqn:Es.
  { unfold readString. rewrite Es. intros [= H]. left. eauto. }
  intros H. right. split; [done|]. cbv zeta.
  set (st0 := lineStart s st) in *.
  destruct (eatSpace s) as [ate s1] eqn:Esp. cbn [fst snd].
  destruct ate.
  { injection H as <- <- <-. left. done. }
  right. split; [done|].
  destruct (readNumber s st0) as [[num s2] st2] eqn:En.
  pose proof (readNumber_spec _ _ _ _ _ En) as [(-> & -> & ->)|(-> & A & ->)].
  2:{ injection H as <- <- <-. left. done. }
  right. split; [done|].
  destruct (startString s st0) as [[str s3] st3] eqn:Est.
  pose proof (startString_spec _ _ _ _ _ Est)
    as [(-> & -> & -> & Hn)|(k & q & content & Hr & Hq & -> & -> & ->)].
  2:{ left. exists k, q, content. split_and!; try done.
      unfold readString in H. simpl in H. by injection H. }
  right. split; [done|].
  unfold StringStream.peek in H. destruct (line s !! pos s) as [ch|] eqn:Ep.
  - right. assert (fst (eatSpace s) = false) as Hsp by by rewrite Esp.
    apply eatSpace_false in Hsp as [Hr|(ch' & r & Hr & Hsp)].
    { apply rest_nil in Hr. unfold eol in Hr. apply Nat.leb_le in Hr.
      apply lookup_lt_Some in Ep. lia. }
    pose proof (rest_cons _ _ _ Hr) as Ep'. rewrite Ep in Ep'. injection Ep' as ->.
    exists ch', r. split_and!; try done. by injection H.
  - left. injection H as <- <- <-. split_and!; try done.
    apply eol_true. unfold eol. apply Nat.leb_le. by apply lookup_ge_None.
Qed.

End Token.

Section Dispatch.

Lemma match_first_advanced ops s s' :
  Forall (fun op => op <> []) ops -> match_first ops s = Some s' -> advanced s s'.
Proof.
  induction 1 as [|op ops Hop _ IH]; simpl; [done|].
  destruct (StringStream.match_string op s) eqn:M; [|done].
  intros [= <-]. by eapply match_string_advanced.
Qed.

Lemma multiCharOps_nonempty : Forall (fun op => op <> []) multiCharOps.
Proof. repeat constructor; done. Qed.
Lemma pairedOps_nonempty : Forall (fun op => op <> []) pairedOps.
Proof. repeat constructor; done. Qed.
Lemma singleOps_nonempty : Forall (fun op => op <> []) singleOps.
Proof. repeat constructor; done. Qed.

Lemma next_eatWhile_advanced p s :
  eol s = false ->
  advanced s (snd (StringStream.eatWhile p (snd (StringStream.next s)))).
Proof.
  intros E. apply (advanced_trans _ _ _ (next_advanced _ E)).
  destruct (eatWhile_stays p (snd (StringStream.next s))); eauto.
Qed.

Lemma skipToEnd_advanced s : eol s = false -> advanced s (StringStream.skipToEnd s).
Proof.
  unfold eol, StringStream.eol. intros H%Nat.leb_gt.
  unfold advanced, StringStream.skipToEnd. simpl. repeat split; lia.
Qed.

Lemma rest_cons_eol s c r : rest s = c :: r -> eol s = false.
Proof.
  intros H. destruct (eol s) eqn:E; [|done]. apply eol_true in E. congruence.
Qed.

(** Every branch of the dispatch consumes at least one character. *)
Lemma dispatch_advanced ch r s st sty s' st' :
  rest s = ch :: r -> dispatch ch s st = (sty, s', st') -> advanced s s'.
Proof.
  intros Hr%rest_cons_eol. unfold dispatch, identifier.
  repeat case_match; intros [= <- <- <-];
    eauto using next_advanced, next_eatWhile_advanced, skipToEnd_advanced,
      match_first_advanced, multiCharOps_nonempty, pairedOps_nonempty,
      singleOps_nonempty; exact (next_eatWhile_advanced identifierPart s Hr).
Qed.

End Dispatch.

(** ** Totality, forward progress and the state invariant *)

Section Progress.

Lemma opened_close_nonempty k q : close (opened k q) <> [].
Proof. done. Qed.

Lemma state_ok_close st info : state_ok st -> string st = Some info -> close info <> [].
Proof. unfold state_ok. intros H E. rewrite E in H. by destruct H as (k & q & _ & ->). Qed.

Lemma readString_with_spec info s st :
  close info <> [] ->
  exists s',
    (s' = s \/ advanced s s') /\ (eol s = false -> advanced s s')
    /\ ((readString_with info s st = (Some string_style, s', st) /\ eol s' = true)
        \/ (readString_with info s st = (Some string_style, s', closed st)
            /\ exists s0, (s0 = s \/ advanced s s0)
                          /\ StringStream.match_string (close info) s0 = Some s')).
Proof. intros Hc. by apply readString_loop_spec. Qed.

Lemma token_total s st : exists sty s' st', token s st = Some (sty, s', st').
Proof.
  unfold token, readString. destruct (string st) as [info|] eqn:Es.
  { destruct (readString_with info s st) as [[sty s'] st']. eauto. }
  destruct (eatSpace s) as [[] s1]; [eauto|].
  destruct (readNumber s _) as [[[num|] s2] st2]; [eauto|].
  destruct (startString s2 st2) as [[[info|] s3] st3] eqn:Est.
  - apply startString_spec in Est as [(? & _)|(k & q & c & _ & _ & _ & _ & ->)]; [done|].
    simpl. destruct (readString_with _ s3 _) as [[sty s'] st']. eauto.
  - destruct (StringStream.peek s3); [|eauto].
    destruct (dispatch _ s3 st3) as [[sty s'] st']. eauto.
Qed.

Lemma lineStart_string s st : string (lineStart s st) = string st.
Proof. unfold lineStart. by destruct (StringStream.sol s). Qed.

Lemma lineStart_stack s st : macroLockStack (lineStart s st) = macroLockStack st.
Proof. unfold lineStart. by destruct (StringStream.sol s). Qed.

Lemma dispatch_string ch s st sty s' st' :
  dispatch ch s st = (sty, s', st') -> string st' = string st.
Proof.
  unfold dispatch, identifier, pop.
  repeat case_match; intros [= <- <- <-]; done.
Qed.

(** The invariant [state_ok] holds of the start state and is kept by
    [blankLine] and [token]. *)
Lemma startState_ok : state_ok startState.
Proof. done. Qed.

Lemma blankLine_ok st : state_ok st -> state_ok (blankLine st).
Proof. done. Qed.

Lemma token_ok s st sty s' st' :
  state_ok st -> token s st = Some (sty, s', st') -> state_ok st'.
Proof.
  intros Hok H. apply token_cases in H as [(info & Es & H)|(Es & H)].
  { destruct (readString_with_spec info s st) as (s1 & _ & _ & [[E _]|[E _]]);
      [by eapply state_ok_close| |]; rewrite E in H; injection H as <- <- <-; done. }
  cbv zeta in H. pose proof (lineStart_string s st) as El. rewrite Es in El.
  destruct H as [(_ & _ & _ & ->)|(_ & [(_ & _ & _ & ->)|(_ & H)])].
  { unfold state_ok. by rewrite El. }
  { unfold state_ok. simpl. by rewrite El. }
  destruct H as [(k & q & c & _ & Hq & H)|(_ & [(_ & _ & _ & ->)|(ch & r & _ & _ & H)])].
  - destruct (readString_with_spec (opened k q)
                (set_pos s (pos s + (k + 1)))
                (set_context false false false false
                   (set_string (Some (opened k q)) (lineStart s st))))
      as (s1 & _ & _ & [[E _]|[E _]]); [done| |];
      rewrite E in H; injection H as <- <- <-; [|done].
    unfold state_ok. simpl. eauto.
  - unfold state_ok. by rewrite El.
  - apply dispatch_string in H. unfold state_ok. by rewrite H, El.
Qed.

End Progress.

(** A call moves the cursor forward, unless it is at the end of the line,
    where it leaves the cursor alone. *)
Lemma token_moves s st sty s' st' :
  state_ok st -> token s st = Some (sty, s', st') ->
  (eol s = false -> advanced s s') /\ (eol s = true -> s' = s).
Proof.
  intros Hok H.
  apply token_cases in H as [(info & Es & H)|(Es & H)].
  { destruct (readString_with_spec info s st) as (s1 & Hs & Ha & Hr);
      [by eapply state_ok_close|].
    assert (s' = s1) as -> by (destruct Hr as [[E _]|[E _]]; congruence).
    split; [done|]. intros E. destruct Hs as [->|(_ & _ & Hlt)]; [done|].
    unfold eol, StringStream.eol in E. apply Nat.leb_le in E. lia. }
  cbv zeta in H.
  destruct H as [(Hsp & _ & -> & _)|(Hsp & H)].
  { pose proof (eatSpace_true _ Hsp) as A. split; [done|].
    intros E. destruct A as (_ & _ & Hlt).
    unfold eol, StringStream.eol in E. apply Nat.leb_le in E. lia. }
  destruct H as [(_ & _ & A & _)|(_ & H)].
  { split; [done|]. intros E. destruct A as (_ & _ & Hlt).
    unfold eol, StringStream.eol in E. apply Nat.leb_le in E. lia. }
  destruct H as [(k & q & c & Hr & Hq & H)|(_ & [(Hr & _ & -> & _)|(ch & r & Hr & _ & H)])].
  - assert (advanced s (set_pos s (pos s + (k + 1)))) as A.
    { apply advanced_by. rewrite Hr, length_app, length_replicate. simpl. lia. }
    destruct (readString_with_spec (opened k q)
                (set_pos s (pos s + (k + 1)))
                (set_context false false false false
                   (set_string (Some (opened k q)) (lineStart s st))))
      as (s1 & Hs & _ & Hres); [done|].
    assert (s' = s1) as -> by (destruct Hres as [[E _]|[E _]]; congruence).
    assert (advanced s s1) as A'.
    { apply (advanced_trans _ _ _ A). destruct Hs; eauto. }
    split; [done|]. intros E. destruct A' as (_ & _ & Hlt).
    unfold eol, StringStream.eol in E. apply Nat.leb_le in E. lia.
  - split; [|done]. intros E. apply eol_false in E as (? & ? & E). congruence.
  - pose proof (dispatch_advanced _ _ _ _ _ _ _ Hr H) as A.
    split; [done|]. intros E. apply eol_true in E. congruence.
Qed.


(** C9 (forward progress).  A call of [token] returns, does not change the
    text of the line, and, when characters are left on the line, moves the
    cursor forward by at least one character without leaving the line; a
    call that leaves the cursor where it was is a call at the end of the
    line, and there it indeed consumes nothing.  The state is any state the
    lexer produces ([state_ok]: a string context, if there is one, was built
    by [startString], so its close sequence is not empty). *)
Theorem token_progress stream state :
  state_ok state ->
  exists style stream' state',
    token stream state = Some (style, stream', state')
    /\ line stream' = line stream
    /\ (eol stream = false ->
        (pos stream < pos stream' <= length (line stream))%nat)
    /\ (pos stream' = pos stream -> eol stream = true)
    /\ (eol stream = true -> stream' = stream).
Proof.
  intros Hok. destruct (token_total stream state) as (sty & s' & st' & H).
  exists sty, s', st'. split; [done|].
  destruct (token_moves _ _ _ _ _ Hok H) as [H1 H2].
  split_and!; [| |intros Hp|done].
  - destruct (eol stream) eqn:E; [by rewrite H2|]. by apply H1.
  - intros E. by apply H1.
  - destruct (eol stream) eqn:E; [done|].
    destruct (H1 eq_refl) as (_ & _ & Hlt). lia.
Qed.

(** The progress theorem at the first token of the line [foo bar]. *)
Lemma token_progress_witness :
  exists style stream' state',
    token (StringStream.make (lit "foo bar")) startState = Some (style, stream', state')
    /\ line stream' = lit "foo bar"
    /\ (eol (StringStream.make (lit "foo bar")) = false ->
        (0 < pos stream' <= 7)%nat)
    /\ (pos stream' = 0%nat -> eol (StringStream.make (lit "foo bar")) = true)
    /\ (eol (StringStream.make (lit "foo bar")) = true ->
        stream' = StringStream.make (lit "foo bar")).
Proof. apply (token_progress (StringStream.make (lit "foo bar")) startState). exact I. Defined.

(** ** The blank line and the fallback *)

(** C10 (frame of the blank-line operation).  [blankLine] sets [exprStart]
    and [macroEligible], clears [afterDot], [inSwap] and [macroLocked], and
    leaves the string context and the lock stack as they were: an open
    string stays open and the saved [macroLocked] values stay on the
    stack. *)
Theorem blankLine_frame state :
  blankLine state =
  {| string := string state; exprStart := true; macroEligible := true;
     afterDot := false; inSwap := false; macroLocked := false;
     macroLockStack := macroLockStack state |}
  /\ string (blankLine state) = string state
  /\ macroLockStack (blankLine state) = macroLockStack state.
Proof. repeat split. Qed.

Lemma unrecognized_tests ch :
  unrecognized ch = true ->
  isSpace ch = false /\ isDigit ch = false /\ isQuote ch = false
  /\ (ch =? code "#") = false /\ (ch =? code ",") = false
  /\ mem ch delimiters = false /\ (ch =? code "@") = false
  /\ operatorChars ch = false /\ (ch =? code ".") = false
  /\ identifierStart ch = false.
Proof.
  unfold unrecognized. rewrite negb_true_iff, !orb_false_iff. tauto.
Qed.

Lemma operatorChars_tests ch :
  operatorChars ch = false ->
  (ch =? code "=") = false /\ (ch =? code "!") = false /\ (ch =? code "<") = false
  /\ (ch =? code ">") = false /\ (ch =? code "+") = false /\ (ch =? code "-") = false
  /\ (ch =? code "*") = false /\ (ch =? code "/") = false /\ (ch =? code "^") = false
  /\ (ch =? code ":") = false /\ (ch =? code "&") = false /\ (ch =? code "|") = false.
Proof. unfold operatorChars. rewrite !orb_false_iff. tauto. Qed.

Lemma isDigit_zero ch : isDigit ch = false -> (ch =? code "0") = false.
Proof.
  intros H. destruct (ch =? code "0") eqn:E; [|done].
  apply N.eqb_eq in E. by subst ch.
Qed.

Lemma peek_rest s ch :
  StringStream.peek s = Some ch -> exists r, rest s = ch :: r.
Proof.
  unfold StringStream.peek, rest, StringStream.rest. intros H.
  exists (drop (S (pos s)) (line s)). by apply drop_S.
Qed.

Lemma fallback stream state ch :
  string state = None -> StringStream.peek stream = Some ch ->
  unrecognized ch = true -> isStringStart (rest stream) = false ->
  token stream state
  = Some (None, set_pos stream (S (pos stream)),
          set_context false false false false (lineStart stream state)).
Proof.
  intros Es Hp Hu Hs. destruct (peek_rest _ _ Hp) as (r & Hr).
  apply unrecognized_tests in Hu
    as (U1 & U2 & U3 & U4 & U5 & U6 & U7 & U8 & U9 & U10).
  pose proof (operatorChars_tests _ U8)
    as (O1 & O2 & O3 & O4 & O5 & O6 & O7 & O8 & O9 & O10 & O11 & O12).
  pose proof (isDigit_zero _ U2) as Z.
  unfold token. rewrite Es.
  unfold eatSpace, StringStream.eatSpace, StringStream.eatWhile.
  rewrite Hr. simpl. rewrite U1. simpl.
  unfold readNumber, StringStream.match_re, re_hex, re_signed, re_decimal,
    re_dot_decimal.
  rewrite Hr. simpl. rewrite Z, U2, O6, U9. simpl.
  replace (match r with | [] | _ => None end) with (@None nat) by by destruct r.
  simpl. destruct (exprStart (lineStart stream state)); simpl;
    unfold startString; unfold isStringStart in Hs;
    destruct (re_string_open (rest stream)); try done;
    rewrite Hp; f_equal; unfold dispatch;
    rewrite U4, U5, U6, U7, O11, U9, U10, U8; simpl;
    unfold StringStream.match_string; rewrite Hr; simpl;
    rewrite ?U9, ?O1, ?O2, ?O3, ?O4, ?O5, ?O6, ?O7, ?O8, ?O9, ?O10, ?O11, ?O12;
    simpl; rewrite (next_cons _ _ _ Hr); done.
Qed.

(** C8 (totality and the fallback), amended.  [token] returns a result for
    every cursor and every state.  A character that no recognizer accepts
    (it is [unrecognized] and does not start a string literal) is consumed
    alone with no category; [exprStart], [macroEligible], [afterDot] and
    [inSwap] are then false, while [macroLocked] keeps the value it has after
    the line-start reset, and the lock stack and the (absent) string context
    are untouched. *)
Theorem token_total_fallback :
  (forall stream state,
     exists style stream' state', token stream state = Some (style, stream', state'))
  /\ (forall stream state ch,
        string state = None -> StringStream.peek stream = Some ch ->
        unrecognized ch = true -> isStringStart (rest stream) = false ->
        token stream state
        = Some (None, set_pos stream (S (pos stream)),
                {| string := None; exprStart := false; macroEligible := false;
                   afterDot := false; inSwap := false;
                   macroLocked := macroLocked (lineStart stream state);
                   macroLockStack := macroLockStack state |})).
Proof.
  split; [apply token_total|].
  intros stream state ch Es Hp Hu Hs. rewrite (fallback _ _ _ Es Hp Hu Hs).
  unfold lineStart. destruct state; simpl in Es; subst.
  by destruct (StringStream.sol stream).
Qed.

(** The fallback at the [$] of the line [return x $], in the state the lexer
    has there. *)
Lemma token_total_fallback_witness :
  token (StringStream.mk (lit "return x $") 9 9)
        (final startState (take 4 (run (lit "return x $"))))
  = Some (None, StringStream.mk (lit "return x $") 10 9,
          {| string := None; exprStart := false; macroEligible := false;
             afterDot := false; inSwap := false; macroLocked := true;
             macroLockStack := [] |}).
Proof.
  apply (proj2 token_total_fallback
           (StringStream.mk (lit "return x $") 9 9)
           (final startState (take 4 (run (lit "return x $"))))
           (code "$")); reflexivity.
Defined.

(** C8 as stated fails: on the line [return x $] the identifier [return] is
    promoted and locks the statement; the [$] at position 9 is accepted by no
    recognizer and is consumed with no category, and [macroLocked] is still
    true afterwards, so not every context flag is false. *)
Lemma fallback_keeps_macroLocked :
  ~ (forall stream state ch style stream' state',
       string state = None -> StringStream.peek stream = Some ch ->
       unrecognized ch = true -> isStringStart (rest stream) = false ->
       token stream state = Some (style, stream', state') ->
       style = None
       /\ exprStart state' = false /\ macroEligible state' = false
       /\ afterDot state' = false /\ inSwap state' = false
       /\ macroLocked state' = false).
Proof.
  intros H.
  specialize (H (StringStream.mk (lit "return x $") 9 9)
                (final startState (take 4 (run (lit "return x $"))))
                (code "$") None (StringStream.mk (lit "return x $") 10 9)
                {| string := None; exprStart := false; macroEligible := false;
                   afterDot := false; inSwap := false; macroLocked := true;
                   macroLockStack := [] |}
                eq_refl eq_refl eq_refl eq_refl eq_refl).
  simpl in H. by destruct H as (_ & _ & _ & _ & _ & H).
Qed.

(** ** Identifiers and keyword promotion *)

Section Identifiers.

(** [readString] always answers with the category string. *)
Lemma readString_loop_style fuel info s st :
  (readString_loop fuel info s st).1.1 = Some string_style.
Proof.
  revert s. induction fuel as [|fuel IH]; intros s; simpl; [done|].
  repeat case_match; try done; apply IH.
Qed.

Lemma readString_with_style info s st sty s' st' :
  readString_with info s st = (sty, s', st') -> sty = Some string_style.
Proof.
  intros H. unfold readString_with in H.
  pose proof (readString_loop_style (length (line s) - pos s) info s st) as E.
  by rewrite H in E.
Qed.

(** An identifier category is only produced by the identifier branch. *)
Lemma identifier_token s st sty s' st' :
  token s st = Some (Some sty, s', st') ->
  is_identifier_style sty = true ->
  string st = None
  /\ exists ch r, rest s = ch :: r /\ identifierStart ch = true
                  /\ identifier s (lineStart s st) = (Some sty, s', st').
Proof.
  intros H Hs. apply token_cases in H as [(info & Es & H)|(Es & H)].
  { apply readString_with_style in H as [= ->]. done. }
  split; [done|]. cbv zeta in H.
  destruct H as [(_ & [=] & _)|(_ & [([= ->] & _)|(_ & H)])]; [done|].
  destruct H as [(k & q & c & _ & _ & H)|(_ & [(_ & [=] & _)|(ch & r & Hr & _ & H)])].
  { apply readString_with_style in H as [= ->]. done. }
  exists ch, r. split; [done|].
  revert H. unfold dispatch.
  repeat case_match; try (intros [= <- _ _]; done); try (intros [=]; done).
  done.
Qed.

Lemma shouldKeyword_eligible s st : shouldKeyword s st = true -> eligible st = true.
Proof.
  unfold shouldKeyword, eligible.
  destruct (exprStart st), (macroEligible st), (afterDot st), (inSwap st),
    (macroLocked st); simpl; done.
Qed.

(** C1 (keyword promotion and its effects).  For a call of [token] that
    returns an identifier category (keyword, property name, special variable
    or variable): if the category is keyword, then in the state the decision
    is taken in (the state of the call after the line-start reset)
    [exprStart] and [macroEligible] are true and [afterDot], [inSwap] and
    [macroLocked] are false; a promoted identifier leaves [exprStart] true,
    [macroEligible] false and [macroLocked] true; any other identifier
    leaves [exprStart] and [macroEligible] false; in both cases [afterDot]
    and [inSwap] are false afterwards. *)
Theorem identifier_promotion stream state style stream' state' :
  token stream state = Some (Some style, stream', state') ->
  is_identifier_style style = true ->
  (style = keyword ->
     exprStart (lineStart stream state) = true
     /\ macroEligible (lineStart stream state) = true
     /\ afterDot (lineStart stream state) = false
     /\ inSwap (lineStart stream state) = false
     /\ macroLocked (lineStart stream state) = false)
  /\ (style = keyword ->
        exprStart state' = true /\ macroEligible state' = false
        /\ macroLocked state' = true)
  /\ (style <> keyword ->
        exprStart state' = false /\ macroEligible state' = false)
  /\ afterDot state' = false /\ inSwap state' = false.
Proof.
  intros H Hs. apply identifier_token in H as (_ & ch & r & _ & _ & H); [|done].
  revert H. unfold identifier.
  set (st0 := lineStart stream state).
  set (s1 := (StringStream.eatWhile identifierPart (StringStream.next stream).2).2).
  destruct (shouldKeyword s1 st0) eqn:K.
  - intros [= <- <- <-]. apply shouldKeyword_eligible in K. unfold eligible in K.
    destruct (exprStart st0), (macroEligible st0), (afterDot st0), (inSwap st0),
      (macroLocked st0); simpl in K; done.
  - destruct (afterDot st0), (inSwap st0); intros [= <- <- <-]; done.
Qed.

(** The theorem at the first token of [foo bar], which is promoted. *)
Lemma identifier_promotion_witness :
  token (StringStream.make (lit "foo bar")) startState
  = Some (Some keyword, StringStream.mk (lit "foo bar") 3 0,
          {| string := None; exprStart := true; macroEligible := false;
             afterDot := false; inSwap := false; macroLocked := true;
             macroLockStack := [] |})
  /\ (keyword = keyword -> true = true /\ true = true /\ false = false
                           /\ false = false /\ false = false)
  /\ (keyword = keyword -> true = true /\ false = false /\ true = true)
  /\ (keyword <> keyword -> true = false /\ false = false)
  /\ false = false /\ false = false.
Proof.
  split; [reflexivity|].
  apply (identifier_promotion (StringStream.make (lit "foo bar")) startState
           keyword (StringStream.mk (lit "foo bar") 3 0)
           {| string := None; exprStart := true; macroEligible := false;
              afterDot := false; inSwap := false; macroLocked := true;
              macroLockStack := [] |}); reflexivity.
Defined.

Lemma identifier_keyword s st sty s' st' :
  identifier s st = (Some sty, s', st') ->
  s' = (StringStream.eatWhile identifierPart (StringStream.next s).2).2
  /\ (sty = keyword <-> shouldKeyword s' st = true).
Proof.
  unfold identifier.
  set (s1 := (StringStream.eatWhile identifierPart (StringStream.next s).2).2).
  destruct (shouldKeyword s1 st) eqn:K.
  - intros [= <- <- <-]. by rewrite K.
  - destruct (afterDot st), (inSwap st); intros [= <- <- <-]; by rewrite K.
Qed.

(** C5 (a call or a property access is not a keyword).  When the character
    right after the identifier run a call of [token] has consumed is an
    opening parenthesis, an opening square bracket or a dot, the identifier
    is not promoted; so [foo] in [foo(bar)] is a plain variable. *)
Theorem call_is_not_keyword :
  (forall stream state style stream' state' ch,
     token stream state = Some (Some style, stream', state') ->
     is_identifier_style style = true ->
     StringStream.peek stream' = Some ch ->
     ch = code "(" \/ ch = code "[" \/ ch = code "." ->
     style <> keyword)
  /\ styleFor (lit "foo(bar)") (lit "foo") = Some variableName.
Proof.
  split; [|reflexivity].
  intros stream state style stream' state' ch H Hs Hp Hch.
  apply identifier_token in H as (_ & c & r & _ & _ & H); [|done].
  apply identifier_keyword in H as [_ H]. rewrite H.
  unfold shouldKeyword. rewrite Hp.
  destruct (_ || _ || _ || _ || _); [done|].
  destruct Hch as [->| [->| ->]]; done.
Qed.

(** The theorem at the first token of [foo(bar)]. *)
Lemma call_is_not_keyword_witness :
  token (StringStream.make (lit "foo(bar)")) startState
  = Some (Some variableName, StringStream.mk (lit "foo(bar)") 3 0,
          {| string := None; exprStart := false; macroEligible := false;
             afterDot := false; inSwap := false; macroLocked := false;
             macroLockStack := [] |})
  /\ StringStream.peek (StringStream.mk (lit "foo(bar)") 3 0) = Some (code "(")
  /\ variableName <> keyword.
Proof.
  split; [reflexivity|]. split; [reflexivity|].
  apply (proj1 call_is_not_keyword
           (StringStream.make (lit "foo(bar)")) startState variableName
           (StringStream.mk (lit "foo(bar)") 3 0)
           {| string := None; exprStart := false; macroEligible := false;
              afterDot := false; inSwap := false; macroLocked := false;
              macroLockStack := [] |}
           (code "(")); [reflexivity|reflexivity|reflexivity|left; reflexivity].
Defined.

Lemma peekNonSpace_from_blank len ws l i :
  forallb isBlank ws = true ->
  peekNonSpace_from len (ws ++ l) i = peekNonSpace_from len l (i + length ws).
Proof.
  revert i. induction ws as [|w ws IH]; intros i; simpl.
  - intros _. by rewrite Nat.add_0_r.
  - intros [Hw H]%andb_prop. unfold isBlank in Hw. rewrite Hw, IH by done.
    f_equal. lia.
Qed.

Lemma isBlank_cases w :
  isBlank w = true -> w = code " " \/ w = 9 \/ w = 13.
Proof.
  unfold isBlank. rewrite !orb_true_iff, !N.eqb_eq. tauto.
Qed.

Lemma isQuote_cases q : isQuote q = true -> q = DQUOTE \/ q = BACKTICK.
Proof. unfold isQuote. rewrite orb_true_iff, !N.eqb_eq. tauto. Qed.

(** A string literal right after the identifier run refuses promotion. *)
Lemma shouldKeyword_adjacent_string s st :
  isStringStart (rest s) = true -> shouldKeyword s st = false.
Proof.
  intros Hs. unfold shouldKeyword. rewrite Hs.
  destruct (rest s) as [|c r] eqn:E; [done|]. apply rest_cons in E.
  unfold StringStream.peek. rewrite E. simpl.
  by repeat case_match.
Qed.

(** A string literal after blanks is an argument: promotion is granted. *)
Lemma shouldKeyword_string_after_blanks s st w ws k q content :
  eligible st = true ->
  rest s = (w :: ws) ++ replicate k BACKSLASH ++ q :: content ->
  forallb isBlank (w :: ws) = true -> isQuote q = true ->
  shouldKeyword s st = true.
Proof.
  intros He Hr Hb Hq. unfold shouldKeyword.
  assert (negb (exprStart st) || negb (macroEligible st) || afterDot st
          || inSwap st || macroLocked st = false) as ->.
  { unfold eligible in He.
    destruct (exprStart st), (macroEligible st), (afterDot st), (inSwap st),
      (macroLocked st); done. }
  pose proof Hb as [Hw _]%andb_prop.
  assert (StringStream.peek s = Some w) as -> by (by apply rest_cons in Hr).
  assert (isStringStart (rest s) = false) as ->.
  { rewrite Hr. unfold isStringStart, re_string_open. simpl.
    apply isBlank_cases in Hw as [->| [->| ->]]; done. }
  assert (is_char (code "(") (Some w) || is_char (code "[") (Some w)
          || is_char (code ".") (Some w) = false) as ->.
  { apply isBlank_cases in Hw as [->| [->| ->]]; done. }
  simpl.
  assert (exists c0 l0, replicate k BACKSLASH ++ q :: content = c0 :: l0
            /\ (c0 = BACKSLASH \/ c0 = DQUOTE \/ c0 = BACKTICK)) as (c0 & l0 & E0 & Hc0).
  { destruct k; simpl; eauto. apply isQuote_cases in Hq. eauto. }
  assert (peekNonSpace s = (Some c0, pos s + length (w :: ws))%nat) as ->.
  { unfold peekNonSpace. rewrite Hr, peekNonSpace_from_blank, E0 by done.
    destruct Hc0 as [->| [->| ->]]; done. }
  assert (isStringStart (drop (pos s + length (w :: ws)) (line s)) = true) as Hs.
  { rewrite <- drop_drop. change (drop (pos s) (line s)) with (rest s). rewrite Hr.
    rewrite drop_app_length. unfold isStringStart.
    assert (re_string_open (replicate k BACKSLASH ++ q :: content) = Some (k, q)) as ->; [|done].
    apply re_string_open_spec. eauto. }
  unfold isArgStart. cbn [fst].
  destruct Hc0 as [->| [->| ->]]; done.
Qed.

(** C4, amended (a string literal after the identifier).  An identifier is
    not promoted when the start of a string literal (a run of backslashes,
    possibly empty, and a double quote or a backtick) follows the identifier
    run immediately.  When blanks (spaces, tabs, carriage returns) separate
    the two, the string literal is an argument and an identifier whose
    context is eligible is promoted. *)
Theorem string_after_identifier :
  (forall stream state style stream' state',
     token stream state = Some (Some style, stream', state') ->
     is_identifier_style style = true ->
     isStringStart (rest stream') = true ->
     style <> keyword)
  /\ (forall stream state style stream' state' w ws k q content,
        token stream state = Some (Some style, stream', state') ->
        is_identifier_style style = true ->
        eligible (lineStart stream state) = true ->
        rest stream' = (w :: ws) ++ replicate k BACKSLASH ++ q :: content ->
        forallb isBlank (w :: ws) = true -> isQuote q = true ->
        style = keyword).
Proof.
  split.
  - intros stream state style stream' state' H Hs Hstr.
    apply identifier_token in H as (_ & c & r & _ & _ & H); [|done].
    apply identifier_keyword in H as [_ H]. rewrite H.
    by rewrite shouldKeyword_adjacent_string.
  - intros stream state style stream' state' w ws k q content H Hs He Hr Hb Hq.
    apply identifier_token in H as (_ & c & r & _ & _ & H); [|done].
    apply identifier_keyword in H as [_ H]. apply H.
    by eapply shouldKeyword_string_after_blanks.
Qed.

(** The theorem at the first token of the lines [tag], double quote, [foo],
    double quote (the string is adjacent: a variable) and [foo], space,
    double quote, [x], double quote (the string is an argument: a keyword). *)
Lemma string_after_identifier_witness :
  (token (StringStream.make (lit "tag" ++ [DQUOTE] ++ lit "foo" ++ [DQUOTE])) startState
   = Some (Some variableName,
           StringStream.mk (lit "tag" ++ [DQUOTE] ++ lit "foo" ++ [DQUOTE]) 3 0,
           {| string := None; exprStart := false; macroEligible := false;
              afterDot := false; inSwap := false; macroLocked := false;
              macroLockStack := [] |})
   /\ variableName <> keyword)
  /\ (token (StringStream.make (lit "foo " ++ [DQUOTE] ++ lit "x" ++ [DQUOTE])) startState
      = Some (Some keyword,
              StringStream.mk (lit "foo " ++ [DQUOTE] ++ lit "x" ++ [DQUOTE]) 3 0,
              {| string := None; exprStart := true; macroEligible := false;
                 afterDot := false; inSwap := false; macroLocked := true;
                 macroLockStack := [] |})
      /\ keyword = keyword).
Proof.
  split; (split; [reflexivity|]).
  - apply (proj1 string_after_identifier
             (StringStream.make (lit "tag" ++ [DQUOTE] ++ lit "foo" ++ [DQUOTE]))
             startState variableName
             (StringStream.mk (lit "tag" ++ [DQUOTE] ++ lit "foo" ++ [DQUOTE]) 3 0)
             {| string := None; exprStart := false; macroEligible := false;
                afterDot := false; inSwap := false; macroLocked := false;
                macroLockStack := [] |}); reflexivity.
  - apply (proj2 string_after_identifier
             (StringStream.make (lit "foo " ++ [DQUOTE] ++ lit "x" ++ [DQUOTE]))
             startState keyword
             (StringStream.mk (lit "foo " ++ [DQUOTE] ++ lit "x" ++ [DQUOTE]) 3 0)
             {| string := None; exprStart := true; macroEligible := false;
                afterDot := false; inSwap := false; macroLocked := true;
                macroLockStack := [] |}
             (code " ") [] 0%nat DQUOTE (lit "x" ++ [DQUOTE])); reflexivity.
Defined.

(** C4 as stated fails: on the line [foo], space, double quote, [x], double
    quote, from the start state, what follows [foo] after the space is the
    start of a string literal, and [foo] is promoted to a keyword. *)
Lemma string_after_space_promotes :
  ~ (forall stream state style stream' state' ch p,
       token stream state = Some (Some style, stream', state') ->
       is_identifier_style style = true ->
       peekNonSpace stream' = (Some ch, p) ->
       isStringStart (drop p (line stream')) = true ->
       style <> keyword).
Proof.
  intros H.
  apply (H (StringStream.make (lit "foo " ++ [DQUOTE] ++ lit "x" ++ [DQUOTE]))
           startState keyword
           (StringStream.mk (lit "foo " ++ [DQUOTE] ++ lit "x" ++ [DQUOTE]) 3 0)
           {| string := None; exprStart := true; macroEligible := false;
              afterDot := false; inSwap := false; macroLocked := true;
              macroLockStack := [] |}
           DQUOTE 4%nat); reflexivity.
Qed.

End Identifiers.

(** ** The minus sign before digits *)

(** Replace the code of every character literal of the goal by its value. *)
Ltac char_codes :=
  repeat match goal with
         | |- context [code ?a] =>
             let v := eval vm_compute in (code a) in change (code a) with v
         end.



Lemma readString_with_state info s st sty s' st' :
  readString_with info s st = (sty, s', st') -> st' = st \/ st' = closed st.
Proof.
  unfold readString_with. generalize (length (line s) - pos s)%nat as fuel.
  intros fuel. revert s. induction fuel as [|fuel IH]; intros s; simpl.
  - intros [= _ _ <-]. by left.
  - repeat case_match; try (intros [= _ _ <-]; by auto); apply IH.
Qed.







(** ** String literals *)

Section StringLiterals.

Lemma find_first_zero pat l :
  find_first pat l = Some 0%nat <-> starts_with pat l = true.
Proof.
  destruct l as [|c l]; simpl; destruct (starts_with pat _) eqn:E; try done.
  destruct (find_first pat l); simpl; split; done.
Qed.

Lemma find_first_succ pat l i :
  find_first pat l = Some (S i) ->
  starts_with pat l = false
  /\ exists c l', l = c :: l' /\ find_first pat l' = Some i.
Proof.
  destruct l as [|c l]; simpl; destruct (starts_with pat _) eqn:E; try done.
  destruct (find_first pat l) as [j|] eqn:F; simpl; [|done].
  intros [= ->]. eauto.
Qed.

(** An occurrence anywhere means that there is a first one, not later. *)
Lemma find_first_occurrence pat l j :
  starts_with pat (drop j l) = true ->
  exists i, find_first pat l = Some i /\ (i <= j)%nat.
Proof.
  revert l. induction j as [|j IH]; intros l H.
  - exists 0%nat. rewrite drop_0 in H. by rewrite find_first_zero.
  - destruct l as [|c l]; simpl in H.
    + exists 0%nat. rewrite find_first_zero. split; [done|lia].
    + destruct (IH l H) as (i & Hi & Hle).
      destruct (starts_with pat (c :: l)) eqn:E.
      * exists 0%nat. rewrite find_first_zero. split; [done|lia].
      * exists (S i). change (find_first pat (c :: l))
          with (if starts_with pat (c :: l) then Some 0%nat
                else S <$> find_first pat l).
        rewrite E, Hi. split; [done|lia].
Qed.

Lemma find_first_spec pat l i :
  find_first pat l = Some i ->
  starts_with pat (drop i l) = true
  /\ forall j, (j < i)%nat -> starts_with pat (drop j l) = false.
Proof.
  revert l. induction i as [|i IH]; intros l H.
  - apply find_first_zero in H. split; [done|lia].
  - apply find_first_succ in H as (E & c & l' & -> & H).
    destruct (IH _ H) as [H1 H2]. split; [done|].
    intros [|j] Hj; [done|]. apply H2. lia.
Qed.

Lemma set_pos_set_pos s a b : set_pos (set_pos s a) b = set_pos s b.
Proof. done. Qed.

Lemma match_string_eq pat s :
  StringStream.match_string pat s
  = if starts_with pat (rest s) then Some (set_pos s (pos s + length pat)) else None.
Proof. done. Qed.



Lemma readNumber_none s st c r :
  rest s = c :: r -> isDigit c = false ->
  (c =? code "-") = false -> (c =? code ".") = false ->
  readNumber s st = (None, s, st).
Proof.
  intros Hr Hd Hm Hp. pose proof (isDigit_zero _ Hd) as Hz.
  unfold readNumber, StringStream.match_re, re_hex, re_signed, re_decimal,
    re_dot_decimal.
  rewrite Hr. simpl. rewrite Hz, Hm, Hd, Hp. simpl.
  replace (match r with | [] | _ => None end) with (@None nat) by by destruct r.
  by destruct (exprStart st).
Qed.

Lemma string_start_head k q content :
  isQuote q = true ->
  exists c r, replicate k BACKSLASH ++ q :: content = c :: r
              /\ (c = BACKSLASH \/ c = DQUOTE \/ c = BACKTICK).
Proof.
  intros Hq%isQuote_cases. destruct k; simpl; eauto.
Qed.

Lemma drop_string_start k q content :
  drop (k + 1) (replicate k BACKSLASH ++ q :: content) = content.
Proof.
  rewrite (cons_middle q), app_assoc. apply drop_app_length'.
  rewrite length_app, length_replicate. done.
Qed.

(** At the start of a string literal [token] opens the string and goes on
    reading it. *)
Lemma token_opens_string s st k q content :
  string st = None ->
  rest s = replicate k BACKSLASH ++ q :: content -> isQuote q = true ->
  token s st
  = Some (readString_with (opened k q) (set_pos s (pos s + (k + 1)))
            (set_context false false false false
               (set_string (Some (opened k q)) (lineStart s st)))).
Proof.
  intros Es Hr Hq.
  destruct (string_start_head k q content Hq) as (c & r & Hc & Hcases).
  assert (re_string_open (rest s) = Some (k, q)) as Ho.
  { apply re_string_open_spec. eauto. }
  rewrite Hc in Hr.
  unfold token. rewrite Es.
  unfold eatSpace, StringStream.eatSpace, StringStream.eatWhile. rewrite Hr.
  assert (isSpace c = false) as Hsp by (by destruct Hcases as [->| [->| ->]]).
  simpl. rewrite Hsp. simpl.
  rewrite (readNumber_none _ _ c r) by (by destruct Hcases as [->| [->| ->]]).
  unfold startString. rewrite Ho. done.
Qed.

Lemma advanced_rest s s0 :
  s0 = s \/ advanced s s0 ->
  exists j, pos s0 = (pos s + j)%nat /\ rest s0 = drop j (rest s).
Proof.
  intros [->|(El & _ & Hp)].
  - exists 0%nat. by rewrite Nat.add_0_r, drop_0.
  - exists (pos s0 - pos s)%nat. split; [lia|].
    unfold rest, StringStream.rest. rewrite El, drop_drop. f_equal. lia.
Qed.


(** The two ends of a call that opens a string: at the end of the line with
    the new context in the state, or after an occurrence of the close
    sequence with the context removed. *)
Lemma token_string_result s st k q content :
  string st = None ->
  rest s = replicate k BACKSLASH ++ q :: content -> isQuote q = true ->
  exists s',
    (token s st
     = Some (Some string_style, s',
             set_context false false false false
               (set_string (Some (opened k q)) (lineStart s st)))
     /\ eol s' = true)
    \/ (token s st
        = Some (Some string_style, s',
                closed (set_context false false false false
                          (set_string (Some (opened k q)) (lineStart s st))))
        /\ exists j, pos s' = (pos s + (k + 1) + j + (k + 1))%nat
                     /\ starts_with (q :: replicate k BACKSLASH) (drop j content) = true).
Proof.
  intros Es Hr Hq. rewrite (token_opens_string _ _ _ _ _ Es Hr Hq).
  set (s1 := set_pos s (pos s + (k + 1))).
  set (st1 := set_context false false false false
                (set_string (Some (opened k q)) (lineStart s st))).
  assert (rest s1 = content) as Hr1.
  { unfold s1. by rewrite rest_set_pos_add, Hr, drop_string_start. }
  destruct (readString_with_spec (opened k q) s1 st1 (opened_close_nonempty k q))
    as (s' & _ & _ & [[E Heol]|(E & s0 & Hs0 & Hm)]); rewrite E; exists s'.
  { by left. }
  right. split; [done|].
  rewrite match_string_eq in Hm.
  destruct (starts_with _ (rest s0)) eqn:Hst; [|done]. injection Hm as <-.
  destruct (advanced_rest _ _ Hs0) as (j & Hp & Hrest).
  rewrite Hr1 in Hrest. rewrite Hrest in Hst.
  exists j. split; [|done]. simpl. rewrite Hp, length_replicate. simpl. lia.
Qed.











(** C6 (a string that is not closed on its line).  A call of [token] with
    a string context [info] reads on in that string with [info], whatever the
    position of the cursor: it answers string and leaves [afterDot],
    [inSwap], [macroLocked] and the lock stack as they are, so no line-start
    reset is applied; if the close sequence does not occur in the rest of
    the line, or more generally if the call ends with a string context, the
    whole state is unchanged and the cursor is at the end of the line.  A
    call that opens a string whose close sequence does not occur in the rest
    of the line answers string, ends at the end of the line and leaves the
    context it has built in the state. *)
Theorem unterminated_string :
  (forall stream state info,
     state_ok state -> string state = Some info ->
     exists stream' state',
       token stream state = Some (Some string_style, stream', state')
       /\ token stream state = Some (readString_with info stream state)
       /\ afterDot state' = afterDot state /\ inSwap state' = inSwap state
       /\ macroLocked state' = macroLocked state
       /\ macroLockStack state' = macroLockStack state
       /\ (find_first (close info) (rest stream) = None ->
           state' = state /\ eol stream' = true)
       /\ (string state' <> None -> state' = state /\ eol stream' = true))
  /\ (forall stream state k q content,
        string state = None ->
        rest stream = replicate k BACKSLASH ++ q :: content ->
        isQuote q = true ->
        find_first (q :: replicate k BACKSLASH) content = None ->
        exists stream',
          token stream state
          = Some (Some string_style, stream',
                  set_context false false false false
                    (set_string (Some (opened k q)) (lineStart stream state)))
          /\ eol stream' = true).
Proof.
  split.
  - intros stream state info Hok Es.
    assert (token stream state = Some (readString_with info stream state)) as Ht.
    { unfold token, readString. by rewrite Es. }
    rewrite Ht.
    destruct (readString_with_spec info stream state (state_ok_close _ _ Hok Es))
      as (s' & _ & _ & [[E Heol]|(E & s0 & Hs0 & Hm)]); rewrite E.
    + exists s', state. split_and!; done.
    + exists s', (closed state). split_and!; try done.
      intros Hf. exfalso.
      rewrite match_string_eq in Hm.
      destruct (starts_with _ (rest s0)) eqn:Hst; [|done].
      destruct (advanced_rest _ _ Hs0) as (j & _ & Hrest). rewrite Hrest in Hst.
      destruct (find_first_occurrence _ _ _ Hst) as (i & Hi & _). congruence.
  - intros stream state k q content Es Hr Hq Hf.
    destruct (token_string_result stream state k q content Es Hr Hq)
      as (s' & [[Ht Heol]|(Ht & j & Hj & Hst)]).
    + by exists s'.
    + destruct (find_first_occurrence _ _ _ Hst) as (i & Hi & _). congruence.
Qed.

(** The theorem at the two lines [x = ], double quote, [abc] and [def]: the
    first line ends inside the string it opens, and the call on the second
    line, at the start of that line, leaves the state as it is. *)
Lemma unterminated_string_witness :
  (exists stream' state',
     token (StringStream.make (lit "def"))
           (final startState (run (lit "x = " ++ [DQUOTE] ++ lit "abc")))
     = Some (Some string_style, stream', state')
     /\ state' = final startState (run (lit "x = " ++ [DQUOTE] ++ lit "abc"))
     /\ eol stream' = true)
  /\ (exists stream',
        token (StringStream.make ([DQUOTE] ++ lit "abc")) startState
        = Some (Some string_style, stream',
                set_context false false false false
                  (set_string (Some (opened 0 DQUOTE)) startState))
        /\ eol stream' = true).
Proof.
  split.
  - destruct (proj1 unterminated_string
                (StringStream.make (lit "def"))
                (final startState (run (lit "x = " ++ [DQUOTE] ++ lit "abc")))
                (opened 0 DQUOTE)
                (ex_intro _ 0%nat (ex_intro _ DQUOTE (conj eq_refl eq_refl)))
                eq_refl)
      as (s' & st' & H & _ & _ & _ & _ & _ & Hnone & _).
    exists s', st'. split; [exact H|]. apply Hnone. reflexivity.
  - apply (proj2 unterminated_string
             (StringStream.make ([DQUOTE] ++ lit "abc")) startState
             0%nat DQUOTE (lit "abc")); reflexivity.
Defined.

End StringLiterals.

(** ** Reaching the dispatch *)

Lemma re_string_open_none c r :
  (BACKSLASH =? c) = false -> isQuote c = false -> re_string_open (c :: r) = None.
Proof.
  intros Hb Hq. unfold re_string_open.
  change (span (N.eqb BACKSLASH) (c :: r))
    with (if BACKSLASH =? c then S (span (N.eqb BACKSLASH) r) else 0%nat).
  rewrite Hb. simpl. by rewrite Hq.
Qed.

Lemma eatSpace_none s c r :
  rest s = c :: r -> isSpace c = false -> fst (eatSpace s) = false.
Proof.
  intros Hr Hsp. unfold eatSpace, StringStream.eatSpace, StringStream.eatWhile.
  rewrite Hr. simpl. by rewrite Hsp.
Qed.

Lemma token_not_space s st c r :
  string st = None -> rest s = c :: r -> isSpace c = false ->
  token s st
  = match readNumber s (lineStart s st) with
    | (Some num, s1, st1) => Some (Some num, s1, st1)
    | (None, s1, st1) =>
        match startString s1 st1 with
        | (Some _, s2, st2) => readString s2 st2
        | (None, s2, st2) =>
            match StringStream.peek s2 with
            | None => Some (None, s2, st2)
            | Some ch => Some (dispatch ch s2 st2)
            end
        end
    end.
Proof.
  intros Es Hr Hsp. unfold token. rewrite Es.
  pose proof (eatSpace_none _ _ _ Hr Hsp) as E.
  destruct (eatSpace s) as [ate s1]. simpl in E. by subst ate.
Qed.

(** Outside a string, at a character that is no white space and at which no
    number and no string starts, [token] is the dispatch on that character in
    the state after the line-start reset. *)
Lemma token_dispatch s st c r :
  string st = None -> rest s = c :: r -> isSpace c = false ->
  readNumber s (lineStart s st) = (None, s, lineStart s st) ->
  isStringStart (rest s) = false ->
  token s st = Some (dispatch c s (lineStart s st)).
Proof.
  intros Es Hr Hsp Hn Hs. rewrite (token_not_space _ _ _ _ Es Hr Hsp), Hn.
  unfold startString. unfold isStringStart in Hs.
  destruct (re_string_open (rest s)); [done|].
  unfold StringStream.peek. by rewrite (rest_cons _ _ _ Hr).
Qed.

(** ** Brackets and the lock stack *)

Section Brackets.

Lemma current_single s ch r :
  StringStream.start s = pos s -> rest s = ch :: r ->
  StringStream.current (set_pos s (S (pos s))) = [ch].
Proof.
  intros Hs Hr. pose proof (rest_cons _ _ _ Hr) as Hl.
  unfold StringStream.current. simpl. rewrite Hs.
  rewrite (take_S_r _ _ _ Hl). apply drop_app_length'.
  apply lookup_lt_Some in Hl. rewrite length_take. lia.
Qed.

Lemma delta_not_bracket t sty :
  sty <> Some bracket -> delta (Tok {| text := t; style := sty |}) = 0%Z.
Proof.
  intros H. destruct t as [|c [|]]; try done. simpl.
  destruct sty as [[]|]; done.
Qed.

(** A bracket token is one delimiter, pushed or popped. *)
Lemma bracket_token s st s' st' :
  token s st = Some (Some bracket, s', st') ->
  exists ch r,
    rest s = ch :: r /\ s' = set_pos s (S (pos s))
    /\ if is_open ch
       then macroLockStack st' = macroLockStack st ++ [macroLocked (lineStart s st)]
            /\ macroLocked st' = false
       else macroLocked st' = List.last (macroLockStack st) false
            /\ macroLockStack st' = removelast (macroLockStack st).
Proof.
  intros H. apply token_cases in H as [(info & Es & H)|(Es & H)].
  { by apply readString_with_style in H. }
  cbv zeta in H.
  destruct H as [(_ & [=] & _)|(_ & [([=] & _)|(_ & H)])].
  destruct H as [(k & q & c & _ & _ & H)|(_ & [(_ & [=] & _)|(ch & r & Hr & _ & H)])].
  { by apply readString_with_style in H. }
  exists ch, r. split; [done|].
  pose proof (lineStart_stack s st) as Hst.
  set (st0 := lineStart s st) in *. clearbody st0.
  revert H. unfold dispatch, identifier, pop.
  rewrite (next_cons _ _ _ Hr). unfold is_open.
  repeat case_match; try (intros [=]; done);
    intros [= <- <-]; simpl; by rewrite Hst.
Qed.

Lemma readString_with_stack info s st sty s' st' :
  readString_with info s st = (sty, s', st') ->
  macroLockStack st' = macroLockStack st.
Proof.
  unfold readString_with. generalize (length (line s) - pos s)%nat as fuel.
  intros fuel. revert s. induction fuel as [|fuel IH]; intros s; simpl.
  - by intros [= _ _ <-].
  - repeat case_match; try (by intros [= _ _ <-]); apply IH.
Qed.

(** Any other call leaves the lock stack alone. *)
Lemma other_token s st sty s' st' :
  token s st = Some (sty, s', st') -> sty <> Some bracket ->
  macroLockStack st' = macroLockStack st.
Proof.
  intros H Hn. apply token_cases in H as [(info & Es & H)|(Es & H)].
  { by eapply readString_with_stack. }
  cbv zeta in H. rewrite <- (lineStart_stack s st).
  destruct H as [(_ & _ & _ & ->)|(_ & [(_ & _ & _ & ->)|(_ & H)])]; [done|done|].
  destruct H as [(k & q & c & _ & _ & H)|(_ & [(_ & _ & _ & ->)|(ch & r & Hr & _ & H)])];
    [|done|].
  { by apply readString_with_stack in H. }
  revert H. unfold dispatch, identifier.
  repeat case_match; intros [= <- <- <-]; try done.
Qed.

Lemma step_stack_effect st e st' :
  lexer_step st e st' -> stack_effect (delta e) st st'.
Proof.
  intros [s sty s' st1 Hs H|]; [|done].
  assert (sty = Some bracket \/ sty <> Some bracket) as [->|Hn]
    by (destruct sty as [[]|]; (by left) || (by right)).
  - apply bracket_token in H as (ch & r & Hr & -> & H).
    rewrite (current_single _ _ _ Hs Hr). simpl.
    destruct (is_open ch); simpl; [|done]. destruct H. eauto.
  - rewrite delta_not_bracket by done. simpl. by eapply other_token.
Qed.

(** *** The runs of the driver are traces of lexer steps *)

Lemma last_cons_default {A} (a d : A) l : List.last (a :: l) d = List.last l a.
Proof.
  revert a d. induction l as [|b l IH]; intros a d; [done|].
  change (List.last (a :: b :: l) d) with (List.last (b :: l) d).
  by rewrite (IH b d), (IH b a).
Qed.

Lemma final_cons st e st' tr : final st ((e, st') :: tr) = final st' tr.
Proof. unfold final. simpl fmap. apply last_cons_default. Qed.

Lemma final_app st t1 t2 : final st (t1 ++ t2) = final (final st t1) t2.
Proof.
  revert st. induction t1 as [|[e st'] t1 IH]; intros st; [done|].
  simpl app. by rewrite !final_cons.
Qed.

Lemma chain_app st t1 t2 :
  chain st t1 -> chain (final st t1) t2 -> chain st (t1 ++ t2).
Proof.
  induction 1 as [|st e st' tr Hstep Hc IH]; [done|].
  rewrite final_cons. intros H. simpl. constructor; auto.
Qed.

Lemma chain_app_inv st t1 t2 :
  chain st (t1 ++ t2) -> chain st t1 /\ chain (final st t1) t2.
Proof.
  revert st. induction t1 as [|[e st'] t1 IH]; intros st; simpl.
  - intros H. split; [constructor|done].
  - inversion 1 as [|? ? ? ? Hstep Hc]; subst. rewrite final_cons.
    destruct (IH _ Hc). split; [by constructor|done].
Qed.

Lemma chain_take st tr n : chain st tr -> chain st (take n tr).
Proof.
  intros H. rewrite <- (take_drop n tr) in H. by apply chain_app_inv in H as [H _].
Qed.

Lemma scan_chain fuel s st :
  StringStream.start s = pos s -> chain st (scan fuel s st).
Proof.
  revert s st. induction fuel as [|fuel IH]; intros s st Hs; simpl; [constructor|].
  destruct (eol s); [constructor|].
  destruct (token_total s st) as (sty & s' & st' & H). rewrite H.
  constructor; [by econstructor|]. by apply IH.
Qed.

Lemma scan_line_chain l st : chain st (scan_line l st).
Proof.
  destruct l as [|c l]; unfold scan_line.
  - repeat constructor.
  - by apply scan_chain.
Qed.

Lemma scan_lines_chain ls st : chain st (scan_lines ls st).
Proof.
  revert st. induction ls as [|l ls IH]; intros st; simpl; [constructor|].
  apply chain_app; [apply scan_line_chain|apply IH].
Qed.

Lemma run_chain doc : chain startState (run doc).
Proof. apply scan_lines_chain. Qed.

(** *** The stack discipline along a trace *)

Lemma delta_range e : delta e = 1%Z \/ delta e = 0%Z \/ delta e = (-1)%Z.
Proof.
  destruct e as [[[|c [|]] [[]|]]| |]; simpl; auto.
  destruct (is_open c); auto.
Qed.

(** Along a trace that never closes more than is open above [base], the
    stack is [base] extended by one entry per open bracket. *)
Lemma chain_stack st tr :
  chain st tr ->
  forall base extra,
    macroLockStack st = base ++ extra ->
    well_bracketed_from (Z.of_nat (length extra)) tr = true ->
    exists extra',
      macroLockStack (final st tr) = base ++ extra'
      /\ Z.of_nat (length extra') = (Z.of_nat (length extra) + depth tr)%Z.
Proof.
  induction 1 as [st|st e st' tr Hstep Hc IH]; intros base extra Hst Hwb.
  { exists extra. split; [done|]. simpl. lia. }
  rewrite final_cons. simpl in Hwb. apply andb_prop in Hwb as [Hd%Z.leb_le Hwb].
  apply step_stack_effect in Hstep. simpl depth.
  destruct (delta_range e) as [E|[E|E]]; rewrite E in *; simpl in Hstep.
  - destruct Hstep as (b & Hs & _).
    destruct (IH base (extra ++ [b])) as (extra' & H1 & H2).
    + by rewrite Hs, Hst, app_assoc.
    + rewrite length_app. simpl.
      replace (Z.of_nat (length extra + 1)) with (Z.of_nat (length extra) + 1)%Z by lia.
      done.
    + exists extra'. split; [done|]. rewrite length_app in H2. simpl in H2. lia.
  - destruct (IH base extra) as (extra' & H1 & H2).
    + by rewrite Hstep.
    + by rewrite Z.add_0_r in Hwb.
    + exists extra'. split; [done|]. lia.
  - destruct Hstep as [_ Hs].
    destruct (exists_last (l := extra)) as (extra0 & x & ->).
    { intros ->. simpl in Hd. lia. }
    rewrite length_app in Hd, Hwb |- *. simpl in Hd, Hwb |- *.
    destruct (IH base extra0) as (extra' & H1 & H2).
    + rewrite Hs, Hst, app_assoc. apply removelast_last.
    + replace (Z.of_nat (length extra0 + 1) + -1)%Z with (Z.of_nat (length extra0)) in Hwb by lia.
      done.
    + exists extra'. split; [done|]. lia.
Qed.

Lemma chain_no_failure st tr e st' : chain st tr -> In (e, st') tr -> e <> Failed.
Proof.
  induction 1 as [|st e0 st0 tr Hstep Hc IH]; simpl; [done|].
  intros [[= -> ->]|H]; [|by apply IH]. by destruct Hstep.
Qed.

(** C2 (the lock stack follows the brackets).  Brackets are the bracket
    tokens of the run of the driver over a document, from the start state;
    the nesting depth is the number of opening bracket tokens so far less
    the number of closing ones, and a run is well bracketed up to a point
    when the depth was never negative.
    - A bracket token on an opening bracket pushes the value [macroLocked]
      has in that call (after the line-start reset) and clears it; one on a
      closing bracket pops the stack into [macroLocked]; on an empty stack
      the pop gives false and leaves the stack empty.
    - After any number of steps of a run that is well bracketed so far, the
      length of the stack is the depth, and the stack is empty at depth zero.
    - After an opening bracket, a balanced stretch of the run and a closing
      bracket, [macroLocked] is the value the opening bracket pushed and the
      stack is the one from before the opening bracket.
    - No call of the run fails.
    - Outside a string, each of the six characters ( [ { ) ] } at the cursor
      gives a bracket token of that one character: an opening one pushes
      [macroLocked] and clears it, and a new expression may start after it;
      a closing one pops the stack into [macroLocked]. *)
Theorem lock_stack_discipline :
  (forall stream state stream' state' ch,
     token stream state = Some (Some bracket, stream', state') ->
     StringStream.peek stream = Some ch ->
     (is_open ch = true ->
      macroLockStack state'
      = macroLockStack state ++ [macroLocked (lineStart stream state)]
      /\ macroLocked state' = false)
     /\ (is_open ch = false ->
         macroLocked state' = List.last (macroLockStack state) false
         /\ macroLockStack state' = removelast (macroLockStack state))
     /\ (is_open ch = false -> macroLockStack state = [] ->
         macroLocked state' = false /\ macroLockStack state' = []))
  /\ (forall doc n,
        well_bracketed (take n (run doc)) = true ->
        Z.of_nat (length (macroLockStack (final startState (take n (run doc)))))
        = depth (take n (run doc))
        /\ (depth (take n (run doc)) = 0%Z ->
            macroLockStack (final startState (take n (run doc))) = []))
  /\ (forall doc pre eo so mid ec sc post,
        run doc = pre ++ (eo, so) :: mid ++ (ec, sc) :: post ->
        delta eo = 1%Z -> balanced mid = true -> delta ec = (-1)%Z ->
        exists b,
          macroLockStack so = macroLockStack (final startState pre) ++ [b]
          /\ macroLocked sc = b
          /\ macroLockStack sc = macroLockStack (final startState pre))
  /\ (forall doc e st, In (e, st) (run doc) -> e <> Failed)
  /\ (forall stream state ch r,
        string state = None -> rest stream = ch :: r ->
        (ch = code "(" \/ ch = code "[" \/ ch = code "{" ->
         token stream state
         = Some (Some bracket, set_pos stream (S (pos stream)),
                 set_context true true false false
                   (set_macroLocked false
                      (set_macroLockStack
                         (macroLockStack state ++ [macroLocked (lineStart stream state)])
                         (lineStart stream state)))))
        /\ (ch = code ")" \/ ch = code "]" \/ ch = code "}" ->
            token stream state
            = Some (Some bracket, set_pos stream (S (pos stream)),
                    set_context false false false false
                      (set_macroLocked (List.last (macroLockStack state) false)
                         (set_macroLockStack (removelast (macroLockStack state))
                            (lineStart stream state)))))).
Proof.
  split_and!.
  - intros stream state stream' state' ch H Hp.
    apply bracket_token in H as (ch' & r & Hr & _ & H).
    apply rest_cons in Hr. unfold StringStream.peek in Hp.
    rewrite Hr in Hp. injection Hp as ->.
    destruct (is_open ch); split_and!; try done.
    intros _ E. rewrite E in H. done.
  - intros doc n Hwb.
    destruct (chain_stack _ _ (chain_take _ _ n (run_chain doc)) [] [] eq_refl Hwb)
      as (extra & H1 & H2).
    rewrite H1. simpl in *. split; [done|].
    intros E. rewrite E in H2. by destruct extra.
  - intros doc pre eo so mid ec sc post Hrun Ho Hb Hc.
    pose proof (run_chain doc) as Hch. rewrite Hrun in Hch.
    apply chain_app_inv in Hch as [_ Hch].
    inversion Hch as [|? ? ? ? Hstep1 Hch1]; subst.
    apply chain_app_inv in Hch1 as [Hmid Hch2].
    inversion Hch2 as [|? ? ? ? Hstep2 _]; subst.
    apply step_stack_effect in Hstep1, Hstep2. rewrite Ho in Hstep1.
    rewrite Hc in Hstep2. simpl in Hstep1, Hstep2.
    destruct Hstep1 as (b & Hso & _). destruct Hstep2 as [Hl Hs].
    apply andb_prop in Hb as [Hwb Hd%Z.eqb_eq].
    destruct (chain_stack _ _ Hmid (macroLockStack so) [] (eq_sym (app_nil_r _)) Hwb)
      as (extra & H1 & H2).
    rewrite Hd in H2. destruct extra; [|done].
    rewrite app_nil_r in H1. rewrite H1, Hso in Hl, Hs.
    exists b. split; [done|]. rewrite last_last in Hl.
    by rewrite removelast_last in Hs.
  - intros doc e st. apply chain_no_failure with startState. apply run_chain.
  - intros stream state ch r Es Hr.
    assert (forall c, c = ch -> isSpace c = false -> isDigit c = false ->
              (c =? code "-") = false -> (c =? code ".") = false ->
              re_string_open (c :: r) = None ->
              token stream state = Some (dispatch c stream (lineStart stream state)))
      as Hd.
    { intros c -> Hsp Hdg Hm Hp Hso.
      apply (token_dispatch _ _ _ _ Es Hr Hsp).
      - by apply (readNumber_none _ _ _ _ Hr).
      - unfold isStringStart. by rewrite Hr, Hso. }
    pose proof (lineStart_stack stream state) as Hst.
    split; intros [->|[->| ->]];
      (rewrite (Hd _ eq_refl) by (try apply re_string_open_none; by vm_compute));
      unfold dispatch, pop, push; rewrite (next_cons _ _ _ Hr), Hst;
      reflexivity.
Qed.

(** The theorem on the line [g (a)]: [g] is promoted and locks the
    statement, the parenthesis saves the lock and clears it, and the closing
    parenthesis restores it; the stack has one entry inside the parentheses
    and none after them.  And on the line [[a]]: the opening square bracket
    is a bracket token of one character that pushes the lock, and the closing
    one, met with a saved lock, is a bracket token that restores it. *)
Lemma lock_stack_discipline_witness :
  (Z.of_nat (length (macroLockStack (final startState (take 3 (run (lit "g (a)"))))))
   = depth (take 3 (run (lit "g (a)")))
   /\ depth (take 3 (run (lit "g (a)"))) = 1%Z)
  /\ macroLockStack (final startState (take 5 (run (lit "g (a)")))) = []
  /\ (exists b,
       macroLockStack (final startState (take 3 (run (lit "g (a)"))))
       = macroLockStack (final startState (take 2 (run (lit "g (a)")))) ++ [b]
       /\ macroLocked (final startState (take 5 (run (lit "g (a)")))) = b
       /\ macroLockStack (final startState (take 5 (run (lit "g (a)"))))
          = macroLockStack (final startState (take 2 (run (lit "g (a)")))))
  /\ (exists state',
        token (StringStream.make (lit "[a]")) startState
        = Some (Some bracket, StringStream.mk (lit "[a]") 1 0, state')
        /\ macroLockStack state' = [false] /\ exprStart state' = true)
  /\ (exists state',
        token (StringStream.mk (lit "[a]") 2 2) (set_macroLockStack [true] startState)
        = Some (Some bracket, StringStream.mk (lit "[a]") 3 2, state')
        /\ macroLocked state' = true /\ macroLockStack state' = []).
Proof.
  split; [|split; [|split; [|split]]].
  - split; [|vm_compute; reflexivity].
    destruct (proj1 (proj2 lock_stack_discipline) (lit "g (a)") 3%nat) as [H _].
    { vm_compute. reflexivity. }
    exact H.
  - destruct (proj1 (proj2 lock_stack_discipline) (lit "g (a)") 5%nat) as [_ H].
    { vm_compute. reflexivity. }
    apply H. vm_compute. reflexivity.
  - apply (proj1 (proj2 (proj2 lock_stack_discipline)) (lit "g (a)")
             (take 2 (run (lit "g (a)")))
             (fst (nth 2 (run (lit "g (a)")) (Blank, startState)))
             (final startState (take 3 (run (lit "g (a)"))))
             (take 1 (drop 3 (run (lit "g (a)"))))
             (fst (nth 4 (run (lit "g (a)")) (Blank, startState)))
             (final startState (take 5 (run (lit "g (a)"))))
             []); vm_compute; reflexivity.
  - destruct (proj2 (proj2 (proj2 (proj2 lock_stack_discipline)))
                (StringStream.make (lit "[a]")) startState (code "[") (lit "a]")
                eq_refl eq_refl) as [Ho _].
    eexists. split; [exact (Ho (or_intror (or_introl eq_refl)))|].
    split; reflexivity.
  - destruct (proj2 (proj2 (proj2 (proj2 lock_stack_discipline)))
                (StringStream.mk (lit "[a]") 2 2) (set_macroLockStack [true] startState)
                (code "]") (lit "")
                eq_refl eq_refl) as [_ Hc].
    eexists. split; [exact (Hc (or_intror (or_introl eq_refl)))|].
    split; reflexivity.
Defined.

End Brackets.

(** ** The loop of the driver ends at the end of the line *)

(** With as much fuel as characters left on the line, more fuel changes
    nothing: the loop of [scan] stops because the cursor has reached the end
    of the line, never because the fuel is spent. *)
Lemma scan_fuel f1 f2 s st :
  state_ok st ->
  (length (line s) - pos s <= f1)%nat -> (length (line s) - pos s <= f2)%nat ->
  scan f1 s st = scan f2 s st.
Proof.
  revert f2 s st. induction f1 as [|f1 IH]; intros f2 s st Hok H1 H2.
  { assert (eol s = true) as E by (apply Nat.leb_le; lia).
    destruct f2; simpl; by rewrite ?E. }
  destruct f2 as [|f2].
  { assert (eol s = true) as E by (apply Nat.leb_le; lia). simpl. by rewrite E. }
  simpl. destruct (eol s) eqn:E; [done|].
  destruct (token s st) as [[[sty s'] st']|] eqn:Ht; [|done].
  f_equal.
  destruct (token_moves _ _ _ _ _ Hok Ht) as [Ha _].
  destruct (Ha E) as (El & _ & Hp).
  apply IH; [by eapply token_ok|simpl; rewrite El; lia..].
Qed.

(** ** The scenarios of the test suite *)

Example scenario_syntax_heads :
  styleFor (lit "fn foo() { return -1 }") (lit "fn") = Some keyword
  /\ styleFor (lit "fn foo() { return -1 }") (lit "return") = Some keyword
  /\ styleFor (lit "fn foo() { return -1 }") (lit "foo") = Some variableName
  /\ styleFor (lit "fn foo() { return -1 }") (lit "-1") = Some number.
Proof. repeat split; reflexivity. Qed.

Example scenario_calls :
  styleFor (lit "foo(bar)") (lit "foo") = Some variableName
  /\ styleFor (lit "foo bar") (lit "foo") = Some keyword
  /\ styleFor (lit "foo = 1") (lit "foo") = Some variableName.
Proof. repeat split; reflexivity. Qed.

Example scenario_swap :
  style <$> tokens (lit "@label outer" ++ [10]
                    ++ lit "while true { swap(&x, &y) } # trailing")
  = Some <$> [annotation; variableName; keyword; variableName; bracket;
              variableName; bracket; operator; variableName_special;
              punctuation; operator; variableName_special; bracket; bracket;
              comment].
Proof. reflexivity. Qed.

(** * Further properties of the lexer *)

(** ** Numbers *)

Lemma isDigit_range d : isDigit d = true <-> (48 <= d <= 57)%N.
Proof.
  unfold isDigit, in_range. char_codes.
  rewrite andb_true_iff, !N.leb_le. done.
Qed.







Lemma rest_second s c d r : rest s = c :: d :: r -> line s !! S (pos s) = Some d.
Proof.
  intros Hr. apply (rest_cons (set_pos s (S (pos s))) d r).
  by rewrite (rest_set_pos _ _ _ Hr).
Qed.

(** X2.  A dot directly followed by a digit, outside a string: with
    [exprStart] true (after the line-start reset) the call returns a number
    token made of the dot and all the digits; with [exprStart] false it
    returns the dot alone as punctuation and sets [afterDot], as for a member
    access. *)
Theorem dot_before_digit stream state d r :
  string state = None ->
  rest stream = code "." :: d :: r ->
  isDigit d = true ->
  (exprStart (lineStart stream state) = true ->
   token stream state
   = Some (Some number, set_pos stream (pos stream + S (span isDigit (d :: r))),
           set_context false false false false (lineStart stream state)))
  /\ (exprStart (lineStart stream state) = false ->
      token stream state
      = Some (Some punctuation, set_pos stream (S (pos stream)),
              set_inSwap false
                (set_macroEligible false
                   (set_exprStart false
                      (set_afterDot true (lineStart stream state)))))).
Proof.
  intros Es Hr Hd.
  assert (isSpace (code ".") = false) as Hsp by done.
  assert ((d =? code ".") = false) as Hdot.
  { apply isDigit_range in Hd. char_codes. apply N.eqb_neq. lia. }
  split; intros He.
  - rewrite (token_not_space _ _ _ _ Es Hr Hsp).
    unfold readNumber, StringStream.match_re. rewrite Hr, He.
    unfold re_hex, re_signed, re_decimal, re_dot_decimal. char_codes.
    simpl. rewrite Hd. simpl. done.
  - rewrite (token_dispatch _ _ _ _ Es Hr Hsp).
    + unfold dispatch. char_codes. simpl.
      unfold StringStream.match_string. rewrite Hr. char_codes. simpl.
      change 46 with (code ".") in Hdot |- *. rewrite Hdot. simpl.
      rewrite (next_cons _ _ _ Hr). simpl.
      unfold StringStream.peek. simpl.
      rewrite (rest_second _ _ _ _ Hr). simpl.
      by rewrite Hdot.
    + unfold readNumber, StringStream.match_re. rewrite Hr, He.
      unfold re_hex, re_decimal. char_codes. simpl. done.
    + rewrite Hr. done.
Qed.

(** The theorem at [.5] from the start state (a number) and at the dot of
    [x.5], after the identifier [x] (a member access). *)
Lemma dot_before_digit_witness :
  token (StringStream.make (lit ".5")) startState
  = Some (Some number, StringStream.mk (lit ".5") 2 0,
          set_context false false false false startState)
  /\ token (StringStream.mk (lit "x.5") 1 1)
           (final startState (take 1 (run (lit "x.5"))))
     = Some (Some punctuation, StringStream.mk (lit "x.5") 2 1,
             set_inSwap false
               (set_macroEligible false
                  (set_exprStart false
                     (set_afterDot true (final startState (take 1 (run (lit "x.5")))))))).
Proof.
  split.
  - apply (proj1 (dot_before_digit (StringStream.make (lit ".5")) startState
                    (code "5") [] eq_refl eq_refl eq_refl)).
    reflexivity.
  - apply (proj2 (dot_before_digit (StringStream.mk (lit "x.5") 1 1)
                    (final startState (take 1 (run (lit "x.5"))))
                    (code "5") [] eq_refl eq_refl eq_refl)).
    reflexivity.
Defined.

(** ** Operators and statement boundaries *)

Lemma token_paired s st c1 c2 r :
  string st = None -> rest s = c1 :: c2 :: r ->
  In [c1; c2] pairedOps ->
  token s st
  = Some (Some operator, set_pos s (pos s + 2),
          set_context true true false false (lineStart s st)).
Proof.
  intros Es Hr Hin. unfold pairedOps in Hin. simpl in Hin.
  assert (token s st = Some (dispatch c1 s (lineStart s st))) as ->.
  { destruct Hin as [H|[H|[H|[H|[H|[H|[H|[]]]]]]]]; injection H as <- <-;
      (apply (token_dispatch _ _ _ _ Es Hr); [done| |by rewrite Hr]);
      by apply (readNumber_none _ _ _ _ Hr). }
  destruct Hin as [H|[H|[H|[H|[H|[H|[H|[]]]]]]]]; injection H as <- <-;
    unfold dispatch; char_codes; simpl;
    unfold StringStream.match_string; rewrite Hr; char_codes; simpl; done.
Qed.

(** X3.  The operators are matched longest first, outside a string: three
    dots are one operator token (which leaves [exprStart] and
    [macroEligible] false), and each of the two-character operators
    [==], [!=], [>=], [<=], [&&], [||], [|>] is one operator token of two
    characters (which leaves them true), never two one-character tokens. *)
Theorem operators_longest_match :
  (forall stream state r,
     string state = None -> rest stream = lit "..." ++ r ->
     token stream state
     = Some (Some operator, set_pos stream (pos stream + 3),
             set_context false false false false (lineStart stream state)))
  /\ (forall stream state op r,
        In op pairedOps ->
        string state = None -> rest stream = op ++ r ->
        token stream state
        = Some (Some operator, set_pos stream (pos stream + 2),
                set_context true true false false (lineStart stream state))).
Proof.
  split.
  - intros stream state r Es Hr.
    change (lit "..." ++ r) with (code "." :: code "." :: code "." :: r) in Hr.
    rewrite (token_dispatch _ _ _ _ Es Hr).
    + unfold dispatch. char_codes. simpl.
      unfold StringStream.match_string. rewrite Hr. char_codes. simpl. done.
    + done.
    + unfold readNumber, StringStream.match_re. rewrite Hr.
      unfold re_hex, re_signed, re_decimal, re_dot_decimal. char_codes. simpl.
      by destruct (exprStart (lineStart stream state)).
    + rewrite Hr. done.
  - intros stream state op r Hin Es Hr.
    assert (exists c1 c2, op = [c1; c2]) as (c1 & c2 & ->).
    { unfold pairedOps in Hin. simpl in Hin.
      destruct Hin as [H|[H|[H|[H|[H|[H|[H|[]]]]]]]]; subst op; eauto. }
    by apply (token_paired _ _ c1 c2 r).
Qed.

(** The theorem at [...xs] and at [|> f]. *)
Lemma operators_longest_match_witness :
  token (StringStream.make (lit "...xs")) startState
  = Some (Some operator, StringStream.mk (lit "...xs") 3 0,
          set_context false false false false startState)
  /\ token (StringStream.make (lit "|> f")) startState
     = Some (Some operator, StringStream.mk (lit "|> f") 2 0,
             set_context true true false false startState).
Proof.
  split.
  - apply (proj1 operators_longest_match (StringStream.make (lit "...xs")) startState
             (lit "xs")); reflexivity.
  - apply (proj2 operators_longest_match (StringStream.make (lit "|> f")) startState
             (lit "|>") (lit " f")); [|reflexivity|reflexivity].
    vm_compute. tauto.
Defined.

(** X4.  A statement boundary outside a string: a [#] takes the rest of the
    line, whatever it contains, as one comment token, and a comma is one
    punctuation token; both set [exprStart] and [macroEligible], clear
    [afterDot], [inSwap] and [macroLocked], and leave the lock stack as it
    is. *)
Theorem statement_boundary stream state r :
  string state = None ->
  (rest stream = code "#" :: r ->
   token stream state
   = Some (Some comment, set_pos stream (length (line stream)),
           {| string := None; exprStart := true; macroEligible := true;
              afterDot := false; inSwap := false; macroLocked := false;
              macroLockStack := macroLockStack state |}))
  /\ (rest stream = code "," :: r ->
      token stream state
      = Some (Some punctuation, set_pos stream (S (pos stream)),
              {| string := None; exprStart := true; macroEligible := true;
                 afterDot := false; inSwap := false; macroLocked := false;
                 macroLockStack := macroLockStack state |})).
Proof.
  intros Es.
  assert (forall b : bool,
            set_macroLocked false (set_context true true false false
                                     (if b then blankLine state else state))
            = {| string := None; exprStart := true; macroEligible := true;
                 afterDot := false; inSwap := false; macroLocked := false;
                 macroLockStack := macroLockStack state |}) as Hst.
  { intros []; destruct state; simpl in *; by subst. }
  split; intros Hr.
  - rewrite (token_dispatch _ _ _ _ Es Hr); [|done| |by rewrite Hr].
    + unfold dispatch. char_codes. simpl. unfold lineStart. by rewrite Hst.
    + by apply (readNumber_none _ _ _ _ Hr).
  - rewrite (token_dispatch _ _ _ _ Es Hr); [|done| |by rewrite Hr].
    + unfold dispatch. char_codes. simpl. rewrite (next_cons _ _ _ Hr).
      unfold lineStart. by rewrite Hst.
    + by apply (readNumber_none _ _ _ _ Hr).
Qed.

(** The theorem at the comment of [f(x # )] (the bracket stays open: one
    entry on the stack) and at the comma of [a, b]. *)
Lemma statement_boundary_witness :
  token (StringStream.mk (lit "f(x # )") 4 4)
        (final startState (take 4 (run (lit "f(x # )"))))
  = Some (Some comment, StringStream.mk (lit "f(x # )") 7 4,
          {| string := None; exprStart := true; macroEligible := true;
             afterDot := false; inSwap := false; macroLocked := false;
             macroLockStack := [false] |})
  /\ token (StringStream.mk (lit "a, b") 1 1)
           (final startState (take 1 (run (lit "a, b"))))
     = Some (Some punctuation, StringStream.mk (lit "a, b") 2 1,
             {| string := None; exprStart := true; macroEligible := true;
                afterDot := false; inSwap := false; macroLocked := false;
                macroLockStack := [] |}).
Proof.
  split.
  - apply (proj1 (statement_boundary (StringStream.mk (lit "f(x # )") 4 4)
                    (final startState (take 4 (run (lit "f(x # )"))))
                    (lit " )") eq_refl)).
    reflexivity.
  - apply (proj2 (statement_boundary (StringStream.mk (lit "a, b") 1 1)
                    (final startState (take 1 (run (lit "a, b"))))
                    (lit " b") eq_refl)).
    reflexivity.
Defined.

(** ** Identifiers in context *)

Lemma identifierStart_range c :
  identifierStart c = true ->
  (65 <= c <= 90 \/ 97 <= c <= 122 \/ c = 95)%N.
Proof.
  unfold identifierStart, in_range. char_codes.
  rewrite !orb_true_iff, !andb_true_iff, !N.leb_le, N.eqb_eq. tauto.
Qed.

Ltac not_code H :=
  char_codes; apply N.eqb_neq; destruct H as [?|[?|?]]; lia.

Lemma identifierStart_not_space c : identifierStart c = true -> isSpace c = false.
Proof.
  intros H%identifierStart_range. unfold isSpace, in_range.
  repeat (apply orb_false_iff; split);
    try (apply N.eqb_neq; destruct H as [?|[?|?]]; lia);
    apply andb_false_iff; destruct H as [?|[?|?]];
    ((left; apply N.leb_gt; lia) || (right; apply N.leb_gt; lia)).
Qed.

Lemma identifierStart_not_digit c : identifierStart c = true -> isDigit c = false.
Proof.
  intros H%identifierStart_range. unfold isDigit, in_range. char_codes.
  apply andb_false_iff; destruct H as [?|[?|?]];
    ((left; apply N.leb_gt; lia) || (right; apply N.leb_gt; lia)).
Qed.

(** Outside a string, an identifier-start character leads to the identifier
    branch. *)
Lemma token_identifier s st c r :
  string st = None -> rest s = c :: r -> identifierStart c = true ->
  token s st = Some (identifier s (lineStart s st)).
Proof.
  intros Es Hr Hc. pose proof (identifierStart_range _ Hc) as Hrg.
  rewrite (token_dispatch _ _ _ _ Es Hr (identifierStart_not_space _ Hc)).
  - f_equal. unfold dispatch.
    assert ((c =? code "#") = false) as -> by not_code Hrg.
    assert ((c =? code ",") = false) as -> by not_code Hrg.
    assert (mem c delimiters = false) as ->.
    { unfold mem, delimiters. simpl. repeat (apply orb_false_iff; split); try done;
        not_code Hrg. }
    assert ((c =? code "@") = false) as -> by not_code Hrg.
    assert ((c =? code "&") = false) as -> by not_code Hrg.
    assert ((c =? code ".") = false) as Hdot by not_code Hrg.
    assert (forall ops,
              Forall (fun op => exists o l, op = o :: l /\ (c =? o) = false) ops ->
              match_first ops s = None) as Hops.
    { induction 1 as [|op ops (o & l & -> & Ho) _ IH]; simpl; [done|].
      unfold StringStream.match_string. rewrite Hr. simpl. by rewrite Ho. }
    rewrite !Hops, Hdot, Hc; [done|..];
      repeat (constructor; [do 2 eexists; split; [reflexivity|not_code Hrg]|]);
      constructor.
  - apply (readNumber_none _ _ _ _ Hr); [by apply identifierStart_not_digit|..];
      not_code Hrg.
  - rewrite Hr. unfold isStringStart.
    rewrite re_string_open_none; [done|..].
    + unfold BACKSLASH. rewrite N.eqb_sym. apply N.eqb_neq.
      destruct Hrg as [?|[?|?]]; lia.
    + unfold isQuote, DQUOTE, BACKTICK. apply orb_false_iff.
      split; apply N.eqb_neq; destruct Hrg as [?|[?|?]]; lia.
Qed.

Lemma span_stop p l c r : drop (span p l) l = c :: r -> p c = false.
Proof.
  induction l as [|a l IH]; simpl; [done|].
  destruct (p a) eqn:E; simpl; [done|]. by intros [= <- _].
Qed.

(** X5.  An identifier token is the longest run: it takes the
    identifier-start character under the cursor and every identifier
    character (letter, digit, underscore, [!], [?]) after it, so the
    character after the token, if any, is not an identifier character. *)
Theorem identifier_is_maximal stream state style stream' state' :
  token stream state = Some (Some style, stream', state') ->
  is_identifier_style style = true ->
  exists c r,
    rest stream = c :: r /\ identifierStart c = true
    /\ pos stream' = (pos stream + 1 + span identifierPart r)%nat
    /\ forall c', StringStream.peek stream' = Some c' -> identifierPart c' = false.
Proof.
  intros H Hs. apply identifier_token in H as (_ & c & r & Hr & Hc & H); [|done].
  apply identifier_keyword in H as [-> _].
  exists c, r. split_and!; try done.
  - rewrite (next_cons _ _ _ Hr). simpl. rewrite (rest_set_pos _ _ _ Hr). lia.
  - intros c' Hp. apply peek_rest in Hp as (r' & Hr').
    rewrite (next_cons _ _ _ Hr) in Hr'.
    unfold StringStream.eatWhile in Hr'. cbn [snd] in Hr'.
    rewrite rest_set_pos_add, (rest_set_pos _ _ _ Hr) in Hr'.
    by eapply span_stop.
Qed.

(** The theorem at the identifier [done?] of [done?(x)]. *)
Lemma identifier_is_maximal_witness :
  exists c r,
    rest (StringStream.make (lit "done?(x)")) = c :: r /\ identifierStart c = true
    /\ pos (StringStream.mk (lit "done?(x)") 5 0)
       = (0 + 1 + span identifierPart r)%nat
    /\ forall c', StringStream.peek (StringStream.mk (lit "done?(x)") 5 0) = Some c' ->
                  identifierPart c' = false.
Proof.
  apply (identifier_is_maximal (StringStream.make (lit "done?(x)")) startState
           variableName (StringStream.mk (lit "done?(x)") 5 0)
           (set_inSwap false (set_afterDot false
              (set_macroEligible false (set_exprStart false startState)))));
    reflexivity.
Defined.

Lemma shouldKeyword_next s st :
  shouldKeyword s st = true ->
  exists ch p,
    peekNonSpace s = (Some ch, p) /\ mem ch statementTerminators = false
    /\ isArgStart s (Some ch, p) = true.
Proof.
  unfold shouldKeyword. intros H.
  destruct (_ || _ || _ || _ || macroLocked st); [done|].
  destruct (_ || _ || is_char (code ".") _); [done|].
  destruct (_ && isStringStart _); [done|].
  destruct (peekNonSpace s) as [[ch|] p]; cbn [fst] in H; [|done].
  destruct (mem ch statementTerminators) eqn:E; [done|]. eauto.
Qed.

Lemma isArgStart_operator s ch p :
  isArgStart s (Some ch, p) = true -> operatorChars ch = true ->
  ch = code "&" \/ ch = code "-".
Proof.
  intros Ha Hop. unfold operatorChars in Hop.
  rewrite !orb_true_iff, !N.eqb_eq in Hop.
  destruct Hop as [[[[[[[[[[[->| ->]| ->]| ->]| ->]| ->]| ->]| ->]| ->]| ->]| ->]| ->];
    try done; auto.
Qed.

(** X6.  A promoted identifier is always followed on its line, after blanks
    only, by the start of an argument: if [token] returns keyword, the first
    character after the identifier that is no space, tab or carriage return
    exists, is no comma, closing bracket or [#], and satisfies [isArgStart].
    So an identifier at the end of a line, or before a comment, a comma, a
    closing bracket or an operator such as [=], is never a keyword. *)
Theorem keyword_needs_argument stream state stream' state' :
  token stream state = Some (Some keyword, stream', state') ->
  exists ch p,
    peekNonSpace stream' = (Some ch, p)
    /\ mem ch statementTerminators = false
    /\ isArgStart stream' (Some ch, p) = true
    /\ (operatorChars ch = true -> ch = code "&" \/ ch = code "-").
Proof.
  intros H. apply identifier_token in H as (_ & c & r & _ & _ & H); [|done].
  apply identifier_keyword in H as [_ [H _]].
  destruct (shouldKeyword_next _ _ (H eq_refl)) as (ch & p & Hp & Hm & Ha).
  exists ch, p. split_and!; try done. by apply (isArgStart_operator stream' ch p).
Qed.

(** The theorem at [return -1]; and [foo] in [foo = 1] is no keyword. *)
Lemma keyword_needs_argument_witness :
  (exists ch p,
     peekNonSpace (StringStream.mk (lit "return -1") 6 0) = (Some ch, p)
     /\ mem ch statementTerminators = false
     /\ isArgStart (StringStream.mk (lit "return -1") 6 0) (Some ch, p) = true
     /\ (operatorChars ch = true -> ch = code "&" \/ ch = code "-"))
  /\ styleFor (lit "foo = 1") (lit "foo") = Some variableName.
Proof.
  split; [|reflexivity].
  apply (keyword_needs_argument (StringStream.make (lit "return -1")) startState
           (StringStream.mk (lit "return -1") 6 0)
           (set_inSwap false (set_afterDot false
              (set_macroLocked true
                 (set_macroEligible false (set_exprStart true startState)))))).
  reflexivity.
Defined.

Lemma identifierStart_not c k :
  identifierStart c = true ->
  (k < 65 \/ 90 < k < 95 \/ k = 96 \/ 122 < k)%N -> (c =? k) = false.
Proof. intros H%identifierStart_range Hk. apply N.eqb_neq. lia. Qed.

Lemma lineStart_inside s st : (0 < pos s)%nat -> lineStart s st = st.
Proof.
  intros H. unfold lineStart, StringStream.sol.
  destruct (pos s =? 0)%nat eqn:E; [|done]. apply Nat.eqb_eq in E. lia.
Qed.

(** After the first character of [c :: d :: r], the identifier [d ...] is
    read in the state [st1] as it stands. *)
Lemma token_second_identifier s st1 c d r :
  string st1 = None -> rest s = c :: d :: r -> identifierStart d = true ->
  token (set_pos s (S (pos s))) st1
  = Some (identifier (set_pos s (S (pos s))) st1).
Proof.
  intros Es Hr Hd.
  rewrite (token_identifier _ _ d r Es (rest_set_pos _ _ _ Hr) Hd).
  rewrite lineStart_inside; [done|simpl; lia].
Qed.

Lemma identifier_style_not_eligible s st :
  eligible st = false ->
  fst (fst (identifier s st))
  = Some (if afterDot st then propertyName
          else if inSwap st then variableName_special else variableName).
Proof.
  intros He. unfold identifier.
  assert (forall s', shouldKeyword s' st = false) as ->.
  { intros s'. destruct (shouldKeyword s' st) eqn:K; [|done].
    apply shouldKeyword_eligible in K. congruence. }
  by destruct (afterDot st), (inSwap st).
Qed.

Lemma identifier_plain s st sty s2 st2 :
  identifier s st = (Some sty, s2, st2) -> sty <> keyword ->
  inSwap st2 = false /\ afterDot st2 = false /\ exprStart st2 = false
  /\ macroEligible st2 = false.
Proof.
  unfold identifier. repeat case_match; intros [= <- <- <-] Hne; done.
Qed.



(** X8.  A member access: outside a string, a dot directly followed by an
    identifier-start character is a punctuation token of one character that
    sets [afterDot]; the call after it reads the identifier as a property
    name, never as a keyword, and clears [afterDot]. *)
Theorem member_access stream state c r :
  string state = None ->
  rest stream = code "." :: c :: r ->
  identifierStart c = true ->
  token stream state
  = Some (Some punctuation, set_pos stream (S (pos stream)),
          set_inSwap false
            (set_macroEligible false
               (set_exprStart false (set_afterDot true (lineStart stream state)))))
  /\ exists stream2 state2,
       token (set_pos stream (S (pos stream)))
             (set_inSwap false
                (set_macroEligible false
                   (set_exprStart false (set_afterDot true (lineStart stream state)))))
       = Some (Some propertyName, stream2, state2)
       /\ afterDot state2 = false /\ exprStart state2 = false.
Proof.
  intros Es Hr Hc. pose proof (identifierStart_not_digit _ Hc) as Hd. split.
  - rewrite (token_dispatch _ _ _ _ Es Hr); [|done| |by rewrite Hr].
    + unfold dispatch. char_codes. simpl.
      unfold StringStream.match_string. rewrite Hr. char_codes. simpl.
      rewrite (identifierStart_not c 46 Hc) by lia. simpl.
      rewrite (next_cons _ _ _ Hr). simpl.
      unfold StringStream.peek. simpl. rewrite (rest_second _ _ _ _ Hr). simpl.
      by rewrite (identifierStart_not c 46 Hc) by lia.
    + unfold readNumber, StringStream.match_re. rewrite Hr.
      unfold re_hex, re_signed, re_decimal, re_dot_decimal. char_codes. simpl.
      rewrite Hd. simpl. by destruct (exprStart (lineStart stream state)).
  - set (st1 := set_inSwap false _).
    assert (string st1 = None) as Es1.
    { unfold st1. simpl. by rewrite lineStart_string. }
    rewrite (token_second_identifier _ _ _ _ _ Es1 Hr Hc).
    assert (eligible st1 = false) as He by done.
    pose proof (identifier_style_not_eligible (set_pos stream (S (pos stream))) st1 He) as Hsty.
    destruct (identifier _ st1) as [[sty s2] st2] eqn:Ei. simpl in Hsty.
    rewrite Hsty in Ei |- *. exists s2, st2. split; [done|].
    destruct (identifier_plain _ _ _ _ _ Ei) as (? & ? & ? & ?); done.
Qed.

(** The theorem at the dot of [a.b c]: [b] is a property name although an
    argument follows it. *)
Lemma member_access_witness :
  token (StringStream.mk (lit "a.b c") 1 1)
        (final startState (take 1 (run (lit "a.b c"))))
  = Some (Some punctuation, StringStream.mk (lit "a.b c") 2 1,
          set_inSwap false
            (set_macroEligible false
               (set_exprStart false
                  (set_afterDot true (final startState (take 1 (run (lit "a.b c"))))))))
  /\ exists stream2 state2,
       token (StringStream.mk (lit "a.b c") 2 1)
             (set_inSwap false
                (set_macroEligible false
                   (set_exprStart false
                      (set_afterDot true (final startState (take 1 (run (lit "a.b c"))))))))
       = Some (Some propertyName, stream2, state2)
       /\ afterDot state2 = false /\ exprStart state2 = false.
Proof.
  apply (member_access (StringStream.mk (lit "a.b c") 1 1)
           (final startState (take 1 (run (lit "a.b c"))))
           (code "b") (lit " c")); reflexivity.
Defined.

(** ** The macro lock and the flags along a run *)

(** X9.  The macro lock holds for the rest of the statement: a call made
    with [macroLocked] true, inside a line or inside a string, never returns
    keyword, and [macroLocked] is still true afterwards unless the token is
    a comment, a comma or a bracket. *)
Theorem macro_lock_persists stream state style stream' state' :
  token stream state = Some (style, stream', state') ->
  macroLocked state = true ->
  StringStream.sol stream = false \/ string state <> None ->
  style <> Some keyword
  /\ (macroLocked state' = true
      \/ style = Some comment \/ style = Some bracket
      \/ (style = Some punctuation /\ StringStream.peek stream = Some (code ","))).
Proof.
  intros H Hl Hin. apply token_cases in H as [(info & Es & H)|(Es & H)].
  { pose proof (readString_with_style _ _ _ _ _ _ H) as ->. split; [done|].
    left. apply readString_with_state in H as [->| ->]; done. }
  assert (lineStart stream state = state) as El.
  { destruct Hin as [Hsol|]; [|done]. unfold lineStart. by rewrite Hsol. }
  cbv zeta in H. rewrite El in H.
  destruct H as [(_ & -> & _ & ->)|(_ & [(-> & _ & _ & ->)|(_ & H)])]; [by auto..|].
  destruct H as [(k & q & c & _ & _ & H)|(_ & [(_ & -> & _ & ->)|(ch & r & Hr & _ & H)])];
    [| by auto |].
  { pose proof (readString_with_style _ _ _ _ _ _ H) as ->. split; [done|].
    left. apply readString_with_state in H as [->| ->]; done. }
  pose proof (rest_cons _ _ _ Hr) as Hp.
  revert H. unfold dispatch, identifier, shouldKeyword, StringStream.peek.
  rewrite Hl, Hp, !orb_true_r.
  repeat case_match; intros [= <- <- <-]; (split; [done|]); simpl; auto.
  right. right. right. split; [done|]. f_equal. by apply N.eqb_eq.
Qed.

(** The theorem at the [x] of [return x y]: an argument follows [x], but
    the statement is locked by [return]; [x] is a variable and the lock
    stays. *)
Lemma macro_lock_persists_witness :
  token (StringStream.mk (lit "return x y") 7 7)
        (final startState (take 2 (run (lit "return x y"))))
  = Some (Some variableName, StringStream.mk (lit "return x y") 8 7,
          final startState (take 3 (run (lit "return x y"))))
  /\ Some variableName <> Some keyword
  /\ (macroLocked (final startState (take 3 (run (lit "return x y")))) = true
      \/ Some variableName = Some comment \/ Some variableName = Some bracket
      \/ (Some variableName = Some punctuation
          /\ StringStream.peek (StringStream.mk (lit "return x y") 7 7)
             = Some (code ","))).
Proof.
  split; [vm_compute; reflexivity|].
  apply (macro_lock_persists (StringStream.mk (lit "return x y") 7 7)
           (final startState (take 2 (run (lit "return x y"))))
           (Some variableName) (StringStream.mk (lit "return x y") 8 7)
           (final startState (take 3 (run (lit "return x y"))))).
  - vm_compute. reflexivity.
  - vm_compute. reflexivity.
  - left. reflexivity.
Defined.

Lemma flags_ok_closed st : flags_ok st = true -> flags_ok (closed st) = true.
Proof.
  unfold flags_ok, closed. simpl.
  destruct (macroEligible st), (exprStart st), (afterDot st), (inSwap st); done.
Qed.

Lemma flags_ok_lineStart s st : flags_ok st = true -> flags_ok (lineStart s st) = true.
Proof. unfold lineStart. by destruct (StringStream.sol s). Qed.

Lemma token_flags_ok s st sty s' st' :
  flags_ok st = true -> token s st = Some (sty, s', st') -> flags_ok st' = true.
Proof.
  intros Hok H. apply token_cases in H as [(info & Es & H)|(Es & H)].
  { apply readString_with_state in H as [->| ->]; [done|by apply flags_ok_closed]. }
  cbv zeta in H. pose proof (flags_ok_lineStart s st Hok) as Hok0.
  set (st0 := lineStart s st) in *. clearbody st0.
  destruct H as [(_ & _ & _ & ->)|(_ & [(_ & _ & _ & ->)|(_ & H)])]; [done|done|].
  destruct H as [(k & q & c & _ & _ & H)|(_ & [(_ & _ & _ & ->)|(ch & r & _ & _ & H)])];
    [|done|].
  { apply readString_with_state in H as [->| ->]; done. }
  revert H. unfold dispatch, identifier, pop.
  repeat case_match; intros [= <- <- <-]; try done;
    unfold flags_ok in *; simpl;
    destruct (macroEligible st0), (exprStart st0), (afterDot st0), (inSwap st0); done.
Qed.

(** A property every step keeps holds of every state of a trace. *)
Lemma chain_invariant (P : RavenState -> Prop) st tr :
  (forall st e st', lexer_step st e st' -> P st -> P st') ->
  chain st tr -> P st -> forall e st', In (e, st') tr -> P st'.
Proof.
  intros Hstep. induction 1 as [|st e0 st0 tr Hs Hc IH]; intros HP e st'; simpl; [done|].
  intros [[= -> ->]|Hin]; [by eapply Hstep|]. eapply IH; [by eapply Hstep|done].
Qed.

(** X10.  Invariants of the state along every run of the driver: in every
    state the lexer reaches, [macroEligible] is only true together with
    [exprStart], [afterDot] is only true with [exprStart] and [inSwap]
    false, and a string context, if there is one, is one [startString]
    builds for some number of backslashes and a quote character. *)
Theorem run_invariants doc e state :
  In (e, state) (run doc) ->
  (macroEligible state = true -> exprStart state = true)
  /\ (afterDot state = true -> exprStart state = false /\ inSwap state = false)
  /\ (forall info, string state = Some info ->
        exists k q, isQuote q = true /\ info = opened k q).
Proof.
  intros Hin.
  assert (flags_ok state = true /\ state_ok state) as [Hf Hs].
  { apply (chain_invariant (fun st => flags_ok st = true /\ state_ok st)
             startState (run doc)) with e; [|apply run_chain|done|done].
    intros st e0 st' [s sty s' st1 _ Ht|] [H1 H2].
    - split; [by eapply token_flags_ok|by eapply token_ok].
    - done. }
  unfold flags_ok in Hf. unfold state_ok in Hs. split_and!.
  - intros E. rewrite E in Hf. by destruct (exprStart state).
  - intros E. rewrite E in Hf.
    destruct (macroEligible state), (exprStart state), (inSwap state); done.
  - intros info E. by rewrite E in Hs.
Qed.

(** The theorem at the state after the dot of [a.b]. *)
Lemma run_invariants_witness :
  afterDot (final startState (take 2 (run (lit "a.b")))) = true
  /\ exprStart (final startState (take 2 (run (lit "a.b")))) = false
  /\ inSwap (final startState (take 2 (run (lit "a.b")))) = false.
Proof.
  split; [vm_compute; reflexivity|].
  assert (In (fst (nth 1 (run (lit "a.b")) (Blank, startState)),
              final startState (take 2 (run (lit "a.b"))))
             (run (lit "a.b"))) as Hin.
  { vm_compute. right. left. reflexivity. }
  apply (proj1 (proj2 (run_invariants _ _ _ Hin))).
  vm_compute. reflexivity.
Defined.

(** ** The tokens of a document *)

Lemma texts_cons_tok t st tr : texts ((Tok t, st) :: tr) = text t ++ texts tr.
Proof. done. Qed.

Lemma texts_app t1 t2 : texts (t1 ++ t2) = texts t1 ++ texts t2.
Proof. unfold texts. by rewrite fmap_app, concat_app. Qed.

Lemma drop_take_drop {A} (l : list A) p p' :
  (p <= p' <= length l)%nat -> drop p (take p' l) ++ drop p' l = drop p l.
Proof.
  intros H. rewrite <- (take_drop p' l) at 3.
  rewrite drop_app_le; [done|]. rewrite length_take. lia.
Qed.

Lemma chain_final_ok st tr : chain st tr -> state_ok st -> state_ok (final st tr).
Proof.
  induction 1 as [|st e st' tr Hs Hc IH]; [done|]. rewrite final_cons.
  intros Hok. apply IH. destruct Hs as [s sty s' st1 _ Ht|]; [by eapply token_ok|done].
Qed.

(** The tokens of one line, read to its end, are not empty and make up the
    rest of the line. *)
Lemma scan_texts fuel s st :
  state_ok st -> StringStream.start s = pos s ->
  (length (line s) - pos s <= fuel)%nat ->
  texts (scan fuel s st) = rest s
  /\ Forall (fun e => exists t, fst e = Tok t /\ text t <> []) (scan fuel s st).
Proof.
  revert s st. induction fuel as [|fuel IH]; intros s st Hok Hs Hf.
  { simpl. split; [|constructor]. symmetry. apply eol_true, Nat.leb_le. lia. }
  simpl. destruct (eol s) eqn:E.
  { split; [|constructor]. symmetry. by apply eol_true. }
  destruct (token_total s st) as (sty & s' & st' & Ht). rewrite Ht.
  destruct (token_moves _ _ _ _ _ Hok Ht) as [Ha _].
  destruct (Ha E) as (El & Est & Hp).
  destruct (IH (StringStream.mk (line s') (pos s') (pos s')) st') as [IH1 IH2];
    [by eapply token_ok|done|simpl; rewrite El; lia|].
  assert (StringStream.current s' = drop (pos s) (take (pos s') (line s))) as Ec.
  { unfold StringStream.current. by rewrite Est, Hs, El. }
  split.
  - rewrite texts_cons_tok, IH1. simpl. rewrite Ec.
    unfold rest, StringStream.rest. simpl. rewrite El.
    apply drop_take_drop. lia.
  - constructor; [|done]. eexists. split; [done|]. simpl. rewrite Ec.
    intros Hnil%(f_equal length). rewrite length_drop, length_take in Hnil.
    simpl in Hnil. lia.
Qed.

Lemma scan_lines_texts ls st :
  state_ok st ->
  texts (scan_lines ls st) = concat ls
  /\ Forall (fun e => fst e = Blank \/ exists t, fst e = Tok t /\ text t <> [])
       (scan_lines ls st).
Proof.
  revert st. induction ls as [|l ls IH]; intros st Hok; simpl; [by split|].
  destruct (IH (final st (scan_line l st))) as [IH1 IH2].
  { apply chain_final_ok; [apply scan_line_chain|done]. }
  rewrite texts_app, IH1.
  assert (texts (scan_line l st) = l
          /\ Forall (fun e => fst e = Blank \/ exists t, fst e = Tok t /\ text t <> [])
               (scan_line l st)) as [H1 H2].
  { destruct l as [|c l]; [split; [done|repeat constructor]|].
    unfold scan_line.
    destruct (scan_texts (length (c :: l)) (StringStream.make (c :: l)) st)
      as [H1 H2]; [done|done|simpl; lia|].
    split; [done|]. eapply Forall_impl; [exact H2|]. intros e He. by right. }
  rewrite H1. split; [done|]. by apply Forall_app.
Qed.

(** X11.  The tokens of a run partition the text: the texts of the tokens
    of a document, in order, are the lines of the document one after the
    other, so no character is lost or read twice; every token has at least
    one character, and the other events of a run are the calls of
    [blankLine] (none is a failure). *)
Theorem run_covers_text doc :
  texts (run doc) = concat (split_lines [] doc)
  /\ Forall (fun e => fst e = Blank \/ exists t, fst e = Tok t /\ text t <> [])
       (run doc).
Proof. apply scan_lines_texts. done. Qed.

(** X12.  Outside a string, a line is read independently of the flags the
    lines before it have left: from two states with no string context and
    the same lock stack, the driver produces the same tokens and the same
    states on any line (blank or not). *)
Theorem line_start_forgets_flags ln state1 state2 :
  string state1 = None -> string state2 = None ->
  macroLockStack state1 = macroLockStack state2 ->
  scan_line ln state1 = scan_line ln state2.
Proof.
  intros E1 E2 Es.
  assert (blankLine state1 = blankLine state2) as Hb.
  { destruct state1, state2. simpl in *. by subst. }
  destruct ln as [|c l]; unfold scan_line; cbv beta iota; [congruence|].
  assert (token (StringStream.make (c :: l)) state1
          = token (StringStream.make (c :: l)) state2) as Ht.
  { unfold token. rewrite E1, E2. unfold lineStart.
    change (StringStream.sol (StringStream.make (c :: l))) with true.
    cbv iota. by rewrite Hb. }
  change (length (c :: l)) with (S (length l)). cbn [scan]. rewrite Ht.
  destruct (token_total (StringStream.make (c :: l)) state2) as (sty & s' & st' & ->).
  done.
Qed.

(** The theorem on the line [x y]: after [return a] (macro lock on) and from
    the start state, the line reads the same. *)
Lemma line_start_forgets_flags_witness :
  scan_line (lit "x y") (final startState (run (lit "return a")))
  = scan_line (lit "x y") startState.
Proof.
  apply line_start_forgets_flags; reflexivity.
Defined.

(** ** The lock stack on any input *)

Lemma removelast_length {A} (l : list A) : length (removelast l) = pred (length l).
Proof.
  destruct (decide (l = [])) as [->|Hne]; [done|].
  destruct (exists_last Hne) as (l' & a & ->).
  rewrite removelast_last, length_app. simpl. lia.
Qed.

Lemma chain_stack_length st tr :
  chain st tr ->
  length (macroLockStack (final st tr))
  = fold_left (fun d e => step_depth d (fst e)) tr (length (macroLockStack st)).
Proof.
  induction 1 as [|st e st' tr Hs Hc IH]; [done|].
  rewrite final_cons, IH. simpl. f_equal.
  apply step_stack_effect in Hs. unfold step_depth.
  destruct (delta_range e) as [E|[E|E]]; rewrite E in *; simpl in Hs.
  - destruct Hs as (b & -> & _). rewrite length_app. simpl. lia.
  - rewrite Hs. lia.
  - destruct Hs as [_ ->]. rewrite removelast_length. lia.
Qed.

(** X13.  On any input, well bracketed or not, the length of the lock stack
    after any number of steps of a run is the nesting depth counted with
    the closing brackets that have no open bracket ignored: such a bracket
    leaves the stack empty, and later brackets are counted from there. *)
Theorem lock_stack_saturates doc n :
  length (macroLockStack (final startState (take n (run doc))))
  = sat_depth (take n (run doc)).
Proof.
  apply (chain_stack_length startState). apply chain_take, run_chain.
Qed.

(** ** Escapes, white space and the frame of the lock stack *)

Lemma starts_with_app pat l : starts_with pat (pat ++ l) = true.
Proof. induction pat as [|p pat IH]; simpl; [done|]. by rewrite N.eqb_refl. Qed.

(** X14.  An escaped character is never examined: inside a double-quote
    string opened with [k] backslashes, at an escape sequence (max(1,k)
    backslashes) followed by a character [c], the call behaves as the call
    made after that character, whatever [c] is (also the quote, also the
    first character of a close sequence).  An escape sequence at the very
    end of the line is consumed alone and the string stays open. *)
Theorem escape_skips_next stream state k :
  string state = Some (opened k DQUOTE) ->
  (forall c r,
     rest stream = replicate (Nat.max 1 k) BACKSLASH ++ c :: r ->
     token stream state
     = token (set_pos stream (pos stream + (Nat.max 1 k + 1))) state)
  /\ (rest stream = replicate (Nat.max 1 k) BACKSLASH ->
      token stream state
      = Some (Some string_style, set_pos stream (pos stream + Nat.max 1 k), state)).
Proof.
  intros Es.
  assert (forall s, token s state = Some (readString_with (opened k DQUOTE) s state)) as Ht.
  { intros s. unfold token, readString. by rewrite Es. }
  destruct (Nat.max 1 k) as [|m] eqn:Em; [lia|].
  assert (forall l, StringStream.match_string (close (opened k DQUOTE)) stream = None
                    \/ rest stream <> BACKSLASH :: l) as Hclose.
  { intros l. rewrite match_string_eq.
    destruct (rest stream) as [|c0 l0] eqn:E; [by right|].
    destruct (decide (c0 = BACKSLASH)) as [->|Hne]; [left; done|right; congruence]. }
  assert (forall l,
            rest stream = replicate (S m) BACKSLASH ++ l ->
            match_escape (opened k DQUOTE) stream
            = Some (set_pos stream (pos stream + S m))) as Hesc.
  { intros l Hr. unfold match_escape, opened. cbn [raw escape].
    change (DQUOTE =? BACKTICK) with false. cbv iota. rewrite Em.
    cbn [replicate]. rewrite match_string_eq, Hr.
    change (BACKSLASH :: replicate m BACKSLASH) with (replicate (S m) BACKSLASH).
    rewrite starts_with_app. by rewrite length_replicate. }
  split.
  - intros c r Hr. rewrite !Ht. f_equal.
    assert (length (line stream) - pos stream = S (m + S (length r)))%nat as Hlen.
    { rewrite <- rest_length, Hr, length_app, length_replicate. simpl. lia. }
    unfold readString_with at 1. rewrite Hlen. cbn [readString_loop].
    assert (eol stream = false) as -> by (apply Nat.leb_gt; lia).
    destruct (Hclose (replicate m BACKSLASH ++ c :: r)) as [->|Hn]; [|by destruct Hn].
    rewrite (Hesc (c :: r) Hr).
    assert (rest (set_pos stream (pos stream + S m)) = c :: r) as Hr2.
    { rewrite rest_set_pos_add, Hr. apply drop_app_length'. by rewrite length_replicate. }
    rewrite (rest_cons_eol _ _ _ Hr2), (next_cons _ _ _ Hr2). simpl snd.
    rewrite readString_loop_fuel; [|done|simpl; lia].
    f_equal. unfold set_pos, StringStream.set_pos. simpl. f_equal. lia.
  - intros Hr. rewrite Ht. f_equal.
    assert (length (line stream) - pos stream = S m)%nat as Hlen.
    { by rewrite <- rest_length, Hr, length_replicate. }
    unfold readString_with. rewrite Hlen. cbn [readString_loop].
    assert (eol stream = false) as -> by (apply Nat.leb_gt; lia).
    destruct (Hclose (replicate m BACKSLASH)) as [->|Hn]; [|by destruct Hn].
    rewrite (Hesc [] (eq_sym (eq_trans (app_nil_r _) (eq_sym Hr)))).
    assert (eol (set_pos stream (pos stream + S m)) = true) as E2.
    { apply Nat.leb_le. simpl. lia. }
    rewrite E2. destruct m; simpl; by rewrite ?E2.
Qed.

(** The theorem on the second line of a string opened on the line before:
    the lines are double quote, [abc] and backslash, double quote, [d],
    double quote.  The escaped quote is skipped; the string is closed by the
    last quote. *)
Lemma escape_skips_next_witness :
  token (StringStream.make ([BACKSLASH; DQUOTE] ++ lit "d" ++ [DQUOTE]))
        (final startState (run ([DQUOTE] ++ lit "abc")))
  = token (StringStream.mk ([BACKSLASH; DQUOTE] ++ lit "d" ++ [DQUOTE]) 2 0)
          (final startState (run ([DQUOTE] ++ lit "abc")))
  /\ token (StringStream.mk ([BACKSLASH; DQUOTE] ++ lit "d" ++ [DQUOTE]) 2 0)
           (final startState (run ([DQUOTE] ++ lit "abc")))
     = Some (Some string_style,
             StringStream.mk ([BACKSLASH; DQUOTE] ++ lit "d" ++ [DQUOTE]) 4 0,
             closed (final startState (run ([DQUOTE] ++ lit "abc")))).
Proof.
  split; [|vm_compute; reflexivity].
  apply (proj1 (escape_skips_next
                  (StringStream.make ([BACKSLASH; DQUOTE] ++ lit "d" ++ [DQUOTE]))
                  (final startState (run ([DQUOTE] ++ lit "abc"))) 0%nat eq_refl)
           DQUOTE (lit "d" ++ [DQUOTE])).
  reflexivity.
Defined.

(** X15.  White space outside a string: a call at a white-space character
    returns no category, takes the whole run of white space, and leaves the
    state as it is (after the line-start reset), so the context flags, the
    macro lock and the lock stack pass over white space. *)
Theorem white_space_token stream state c r :
  string state = None ->
  rest stream = c :: r ->
  isSpace c = true ->
  token stream state
  = Some (None, set_pos stream (pos stream + span isSpace (c :: r)),
          lineStart stream state)
  /\ forall c',
       StringStream.peek (set_pos stream (pos stream + span isSpace (c :: r))) = Some c' ->
       isSpace c' = false.
Proof.
  intros Es Hr Hc. split.
  - unfold token. rewrite Es.
    unfold eatSpace, StringStream.eatSpace, StringStream.eatWhile. rewrite Hr.
    simpl span. rewrite Hc. done.
  - intros c' Hp. apply peek_rest in Hp as (r' & Hr').
    rewrite rest_set_pos_add, Hr in Hr'. by eapply span_stop.
Qed.

(** The theorem at the blanks of [a.  b], after the dot: [afterDot] passes
    over them. *)
Lemma white_space_token_witness :
  token (StringStream.mk (lit "a.  b") 2 2)
        (final startState (take 2 (run (lit "a.  b"))))
  = Some (None, StringStream.mk (lit "a.  b") 4 2,
          final startState (take 2 (run (lit "a.  b"))))
  /\ afterDot (final startState (take 2 (run (lit "a.  b")))) = true.
Proof.
  split; [|vm_compute; reflexivity].
  apply (proj1 (white_space_token (StringStream.mk (lit "a.  b") 2 2)
                  (final startState (take 2 (run (lit "a.  b"))))
                  (code " ") (lit " b") eq_refl eq_refl eq_refl)).
Defined.



(** X17.  Only bracket tokens change the lock stack: a call of [token]
    that returns anything but the category bracket (a string or a comment
    that contains bracket characters, for instance) leaves the stack as it
    is. *)
Theorem lock_stack_frame stream state style stream' state' :
  token stream state = Some (style, stream', state') ->
  style <> Some bracket ->
  macroLockStack state' = macroLockStack state.
Proof. apply other_token. Qed.

(** The theorem at the string of [f(] followed by a string that holds a
    closing parenthesis: the stack keeps its entry. *)
Lemma lock_stack_frame_witness :
  macroLockStack
    (final startState (take 3 (run (lit "f(" ++ [DQUOTE] ++ lit ")" ++ [DQUOTE]))))
  = macroLockStack
      (final startState (take 2 (run (lit "f(" ++ [DQUOTE] ++ lit ")" ++ [DQUOTE])))).
Proof.
  apply (lock_stack_frame
           (StringStream.mk (lit "f(" ++ [DQUOTE] ++ lit ")" ++ [DQUOTE]) 2 2)
           (final startState (take 2 (run (lit "f(" ++ [DQUOTE] ++ lit ")" ++ [DQUOTE]))))
           (Some string_style)
           (StringStream.mk (lit "f(" ++ [DQUOTE] ++ lit ")" ++ [DQUOTE]) 5 2)
           (final startState (take 3 (run (lit "f(" ++ [DQUOTE] ++ lit ")" ++ [DQUOTE]))))).
  - vm_compute. reflexivity.
  - discriminate.
Defined.

(** ** The lookahead and strings that are never closed *)

Lemma peekNonSpace_from_spec len l i o p :
  len = (i + length l)%nat ->
  peekNonSpace_from len l i = (o, p) ->
  (i <= p <= len)%nat
  /\ forallb isBlank (take (p - i) l) = true
  /\ match o with
     | Some ch => l !! (p - i)%nat = Some ch /\ isBlank ch = false /\ ch <> code "#"
     | None => p = len \/ l !! (p - i)%nat = Some (code "#")
     end.
Proof.
  revert i. induction l as [|c l IH]; intros i Hlen; simpl.
  { intros [= <- <-]. simpl in Hlen. replace (len - i)%nat with 0%nat by lia.
    split_and!; [lia..|done|by left]. }
  simpl in Hlen. fold (isBlank c). destruct (isBlank c) eqn:Eb.
  - intros H. apply IH in H as (Hp & Hall & Ho); [|lia].
    replace (p - i)%nat with (S (p - S i)) by lia. simpl. rewrite Eb.
    split_and!; [lia..|done|done].
  - destruct (c =? code "#") eqn:Eh; intros [= <- <-];
      replace (i - i)%nat with 0%nat by lia; simpl.
    + apply N.eqb_eq in Eh. subst c. split_and!; [lia..|done|by right].
    + apply N.eqb_neq in Eh. split_and!; try done; lia.
Qed.

(** X18.  The lookahead [peekNonSpace] from a cursor within the line: the
    position it returns is not before the cursor and not past the end; all
    the characters it has passed are spaces, tabs or carriage returns; the
    character it returns is the one at that position and is none of these
    nor [#]; and it returns no character exactly at the end of the line or
    at a [#], which it does not look past. *)
Theorem peekNonSpace_spec stream o p :
  (pos stream <= length (line stream))%nat ->
  peekNonSpace stream = (o, p) ->
  (pos stream <= p <= length (line stream))%nat
  /\ forallb isBlank (take (p - pos stream) (rest stream)) = true
  /\ match o with
     | Some ch => line stream !! p = Some ch /\ isBlank ch = false /\ ch <> code "#"
     | None => p = length (line stream) \/ line stream !! p = Some (code "#")
     end.
Proof.
  intros Hpos H. unfold peekNonSpace in H.
  apply peekNonSpace_from_spec in H as (Hp & Hall & Ho).
  - split_and!; [lia..|done|].
    assert (rest stream !! (p - pos stream)%nat = line stream !! p) as E.
    { unfold rest, StringStream.rest. rewrite lookup_drop. f_equal. lia. }
    rewrite E in Ho. done.
  - rewrite rest_length. lia.
Qed.

(** The theorem after [foo] in [foo   # bar]: nothing follows. *)
Lemma peekNonSpace_spec_witness :
  peekNonSpace (StringStream.mk (lit "foo   # bar") 3 0) = (None, 6%nat)
  /\ (3 <= 6 <= 11)%nat
  /\ forallb isBlank (take (6 - 3) (lit "   # bar")) = true
  /\ (6%nat = 11%nat \/ lit "foo   # bar" !! 6%nat = Some (code "#")).
Proof.
  split; [reflexivity|].
  apply (peekNonSpace_spec (StringStream.mk (lit "foo   # bar") 3 0) None 6%nat).
  - simpl. lia.
  - reflexivity.
Defined.

Lemma scan_line_in_string l st info :
  state_ok st -> string st = Some info ->
  find_first (close info) l = None -> l <> [] ->
  scan_line l st = [(Tok {| text := l; style := Some string_style |}, st)].
Proof.
  intros Hok Es Hf Hne. destruct l as [|c l]; [done|]. unfold scan_line.
  set (s := StringStream.make (c :: l)).
  change (length (c :: l)) with (S (length l)). cbn [scan].
  change (eol s) with false. cbv iota.
  assert (token s st = Some (readString_with info s st)) as ->.
  { unfold token, readString. by rewrite Es. }
  destruct (readString_with_spec info s st (state_ok_close _ _ Hok Es))
    as (s' & _ & Ha & [[E Heol]|(E & s0 & Hs0 & Hm)]).
  - rewrite E. destruct (Ha eq_refl) as (El & Est & Hp).
    assert (pos s' = length (c :: l)) as Hpos.
    { unfold eol, StringStream.eol in Heol. apply Nat.leb_le in Heol.
      rewrite El in Heol. simpl in *. lia. }
    assert (StringStream.current s' = c :: l) as ->.
    { unfold StringStream.current. rewrite Est, El, Hpos. simpl.
      by rewrite take_ge. }
    f_equal. destruct (length l) as [|n]; simpl; [done|].
    assert (eol (StringStream.mk (line s') (pos s') (pos s')) = true) as ->; [|done].
    apply Nat.leb_le. simpl. rewrite El, Hpos. done.
  - exfalso. rewrite match_string_eq in Hm.
    destruct (starts_with _ (rest s0)) eqn:Hst; [|done].
    destruct (advanced_rest _ _ Hs0) as (j & _ & Hrest). rewrite Hrest in Hst.
    destruct (find_first_occurrence _ _ _ Hst) as (i & Hi & _).
    change (rest s) with (c :: l) in Hi. congruence.
Qed.

(** X19.  A string that is never closed runs on: from a state with a string
    context, over lines in none of which the close sequence occurs, the
    driver gives exactly one event for each line, in the order of the lines:
    for a line that is not empty, one string token that is the whole line,
    and for an empty line the call of [blankLine]; and the string context is
    the same after every one of these events. *)
Theorem unclosed_string_runs_on lines state info :
  state_ok state -> string state = Some info ->
  Forall (fun l => find_first (close info) l = None) lines ->
  fst <$> scan_lines lines state
  = (fun l => match l with
              | [] => Blank
              | _ :: _ => Tok {| text := l; style := Some string_style |}
              end) <$> lines
  /\ Forall (fun e => string (snd e) = Some info) (scan_lines lines state).
Proof.
  intros Hok Es Hall. revert state Hok Es.
  induction Hall as [|l ls Hl Hls IH]; intros state Hok Es; simpl;
    [by split; [|constructor]|].
  destruct l as [|c l].
  - change (scan_line [] state) with [(Blank, blankLine state)]. simpl.
    destruct (IH (blankLine state)) as [H1 H2]; [done..|].
    split; [|by constructor].
    f_equal. exact H1.
  - rewrite (scan_line_in_string _ _ _ Hok Es Hl) by done. simpl.
    destruct (IH state Hok Es) as [H1 H2].
    split; [|by constructor].
    f_equal. exact H1.
Qed.

(** The theorem on two lines and an empty line between them, after a line
    that opens a string with a double quote: three events, the string token
    [a # (b], the blank line and the string token [c]. *)
Lemma unclosed_string_runs_on_witness :
  fst <$> scan_lines [lit "a # (b"; []; lit "c"]
            (final startState (run ([DQUOTE] ++ lit "x")))
  = [Tok {| text := lit "a # (b"; style := Some string_style |}; Blank;
     Tok {| text := lit "c"; style := Some string_style |}]
  /\ Forall (fun e => string (snd e) = Some (opened 0 DQUOTE))
       (scan_lines [lit "a # (b"; []; lit "c"]
          (final startState (run ([DQUOTE] ++ lit "x")))).
Proof.
  apply (unclosed_string_runs_on [lit "a # (b"; []; lit "c"]
           (final startState (run ([DQUOTE] ++ lit "x"))) (opened 0 DQUOTE)).
  - exists 0%nat, DQUOTE. split; reflexivity.
  - reflexivity.
  - repeat constructor.
Defined.
